(* ===================================================================== *)
(* A line-oriented TCP command server: main.cpp                          *)
(*                                                                       *)
(* Shallow embedding of the command table, the strtok_r tokenising loop, *)
(* the per-connection read/echo/dispatch loop and the accept loop with   *)
(* its registry of worker futures, followed by the properties proved     *)
(* about them.                                                           *)
(* ===================================================================== *)

From Equations Require Import Equations.
From Stdlib Require Import Ascii String.
From stdpp Require Import gmap strings list pretty.

(* --------------------------------------------------------------------- *)
(* Characters                                                            *)
(* --------------------------------------------------------------------- *)

(* '\r', '\n' and the terminating NUL of a C string. *)
Definition CR : ascii := ascii_of_nat 13.
Definition LF : ascii := ascii_of_nat 10.
Definition NUL : ascii := ascii_of_nat 0.

(* isprint in the "C" locale (the program never calls setlocale):
   exactly the codes 0x20 .. 0x7e. *)
Definition isprint (chr : ascii) : bool :=
  let n := nat_of_ascii chr in (32 <=? n)%nat && (n <=? 126)%nat.

(* std::toupper on one unsigned char, "C" locale. *)
Definition toupper_chr (chr : ascii) : ascii :=
  let n := nat_of_ascii chr in
  if (97 <=? n)%nat && (n <=? 122)%nat then ascii_of_nat (n - 32) else chr.

(* isspace in the "C" locale: space, \t, \n, \v, \f, \r.  Only used to
   compare the tokeniser with a split on white space. *)
Definition isspace (chr : ascii) : bool :=
  let n := nat_of_ascii chr in (n =? 32)%nat || ((9 <=? n)%nat && (n <=? 13)%nat).

(* chr == '\r' || chr == '\n' *)
Definition is_terminator (chr : ascii) : bool :=
  Ascii.eqb chr CR || Ascii.eqb chr LF.

(* toupper(std::string &): std::ranges::transform over the whole string. *)
Fixpoint toupper (str : string) : string :=
  match str with
  | EmptyString => EmptyString
  | String chr rest => String (toupper_chr chr) (toupper rest)
  end.

(* What a `const char *` reader sees of a buffer: the bytes before the
   first NUL. *)
Fixpoint c_str (s : string) : string :=
  match s with
  | EmptyString => EmptyString
  | String chr rest =>
      if Ascii.eqb chr NUL then EmptyString else String chr (c_str rest)
  end.

(* --------------------------------------------------------------------- *)
(* Command actions and the command table                                 *)
(* --------------------------------------------------------------------- *)

(* What an action can see and change: the process-wide atomic `running`
   and the std::ostream it is handed. *)
Record cmd_state : Type := CmdState {
  running : bool;
  os : string
}.

(* std::endl on a stringstream: a single '\n'. *)
Definition endl : string := String LF EmptyString.

(* static void ex(std::ostream &os) { (void)os; running = false; } *)
Definition ex (st : cmd_state) : cmd_state :=
  {| running := false; os := os st |}.

(* static void dir(std::ostream &os) { os << "Directory..." << std::endl; } *)
Definition dir (st : cmd_state) : cmd_state :=
  {| running := running st; os := os st +:+ "Directory..." +:+ endl |}.

(* static std::map<std::string_view, std::function<void(std::ostream&)>> *)
Definition tokens : gmap string (cmd_state -> cmd_state) :=
  <["EX" := ex]> (<["DIR" := dir]> ∅).

(* --------------------------------------------------------------------- *)
(* strtok_r with the delimiter set " "                                   *)
(* --------------------------------------------------------------------- *)

(* strspn(s, " "): step over leading delimiters. *)
Fixpoint skip_delim (s : string) : string :=
  match s with
  | EmptyString => EmptyString
  | String chr rest => if Ascii.eqb chr " " then skip_delim rest else s
  end.

(* strcspn(s, " "): the token that starts at s, and the save pointer, which
   is just behind the delimiter that was overwritten with NUL (or at the
   end of the string). *)
Fixpoint scan_token (s : string) : string * string :=
  match s with
  | EmptyString => (EmptyString, EmptyString)
  | String chr rest =>
      if Ascii.eqb chr " " then (EmptyString, rest)
      else let '(tok, save) := scan_token rest in (String chr tok, save)
  end.

(* One call of strtok_r on the text at the save pointer: None is the null
   pointer result. *)
Definition strtok_r (save : string) : option (string * string) :=
  match skip_delim save with
  | EmptyString => None
  | String chr rest => Some (scan_token (String chr rest))
  end.

Lemma skip_delim_length s : String.length (skip_delim s) <= String.length s.
Proof.
  induction s as [|chr rest IH]; simpl; [lia|].
  destruct (Ascii.eqb chr " "); simpl; lia.
Qed.

Lemma scan_token_length chr rest :
  String.length (snd (scan_token (String chr rest))) < String.length (String chr rest).
Proof.
  revert chr. induction rest as [|chr' rest IH]; intros chr; simpl.
  - destruct (Ascii.eqb chr " "); simpl; lia.
  - destruct (Ascii.eqb chr " "); simpl; [lia|].
    specialize (IH chr'). simpl in IH.
    destruct (Ascii.eqb chr' " "); simpl in *; [lia|].
    destruct (scan_token rest) as [tok save]; simpl in *; lia.
Qed.

Lemma strtok_r_shrinks save tok save' :
  strtok_r save = Some (tok, save') ->
  String.length save' < String.length save.
Proof.
  unfold strtok_r. intros H.
  pose proof (skip_delim_length save) as Hs.
  destruct (skip_delim save) as [|chr rest] eqn:E; [discriminate|].
  pose proof (scan_token_length chr rest) as Ht.
  destruct (scan_token (String chr rest)) as [t s'].
  injection H as -> ->. simpl in Ht, Hs. lia.
Qed.

(* The body of the while (token) loop: uppercase a copy of the token and
   call the table entry when there is one. *)
Definition dispatch_token (token : string) (st : cmd_state) : cmd_state :=
  match tokens !! toupper token with
  | Some action => action st
  | None => st
  end.

(* Keeps the equation `strtok_r save = ...` in scope of the recursive call. *)
Definition inspect {A : Type} (x : A) : {y : A | x = y} := exist _ x eq_refl.

(* The while (token) loop of connection_command, from the save pointer. *)
Equations? command_loop (save : string) (st : cmd_state) : cmd_state
  by wf (String.length save) lt :=
  command_loop save st with inspect (strtok_r save) := {
    | exist _ None _ => st
    | exist _ (Some (token, save')) Hnext =>
        command_loop save' (dispatch_token token st) }.
Proof. eapply strtok_r_shrinks; eassumption. Qed.

(* static void connection_command(std::string &line, std::ostream &os) *)
Definition connection_command (line : string) (st : cmd_state) : cmd_state :=
  command_loop (c_str line) st.

(* Every token the strtok_r loop hands out from the save pointer, in the
   order of the calls. *)
Equations? strtok_all (save : string) : list string
  by wf (String.length save) lt :=
  strtok_all save with inspect (strtok_r save) := {
    | exist _ None _ => []
    | exist _ (Some (token, save')) Hnext => token :: strtok_all save' }.
Proof. eapply strtok_r_shrinks; eassumption. Qed.

(* The condition of `if (... this_token != tokens.end())`. *)
Definition known (token : string) : bool :=
  bool_decide (is_Some (tokens !! toupper token)).

(* --------------------------------------------------------------------- *)
(* The connection worker: static void connection(int s)                  *)
(* --------------------------------------------------------------------- *)

(* What happens on one connection, oldest first: the send and recv calls
   on its socket, the lines it writes with WRITE_LOG, and the close of the
   socket by the thread that ran connection. *)
Inductive syscall : Type :=
| Send (payload : string)
| Recv (buf : list ascii)
| Log (message : string)
| Close.

(* The locals of connection: the line buffer and the calls made so far. *)
Record conn : Type := Conn {
  line : string;
  sock : list syscall
}.

(* A worker inside connection: the global `running` next to its locals. *)
Record worker : Type := Worker {
  wk_running : bool;
  wk_conn : conn
}.

Definition send (payload : string) (c : conn) : conn :=
  {| line := line c; sock := sock c ++ [Send payload] |}.

Definition write_log (message : string) (c : conn) : conn :=
  {| line := line c; sock := sock c ++ [Log message] |}.

Definition prompt : string := String CR (String LF ">>").
Definition crlf : string := String CR (String LF EmptyString).

(* if (!line.empty()) { ... } of the terminator branch: run the line
   through connection_command on a fresh stringstream, send the response
   when there is one, clear the line. *)
Definition process_line (w : worker) : worker :=
  match line (wk_conn w) with
  | EmptyString => w
  | String _ _ =>
      let st := connection_command (line (wk_conn w))
                  {| running := wk_running w; os := EmptyString |} in
      let response := os st in
      let c := match response with
               | EmptyString => wk_conn w
               | String _ _ => send response (send crlf (wk_conn w))
               end in
      {| wk_running := running st;
         wk_conn := {| line := EmptyString; sock := sock c |} |}
  end.

(* The body of the for loop over the received bytes. *)
Definition process_chr (chr : ascii) (w : worker) : worker :=
  if is_terminator chr then
    let w' := process_line w in
    {| wk_running := wk_running w'; wk_conn := send prompt (wk_conn w') |}
  else if negb (isprint chr) then w
  else
    let c := send (String chr EmptyString) (wk_conn w) in
    {| wk_running := wk_running w;
       wk_conn := {| line := line c +:+ String chr EmptyString;
                     sock := sock c |} |}.

(* for (int i = 0; i < bytes_received; i++) *)
Fixpoint process_bytes (buf : list ascii) (w : worker) : worker :=
  match buf with
  | [] => w
  | chr :: rest => process_bytes rest (process_chr chr w)
  end.

(* What select and recv give the worker in one turn of its loop. *)
Inductive poll_result : Type :=
| SelectFailed                  (* select returned -1 *)
| SelectTimeout                 (* select returned 0 *)
| RecvFailed                    (* readable, recv returned -1 *)
| RecvData (buf : list ascii).  (* readable, recv returned length buf *)

Definition stop (message : string) (w : worker) : worker :=
  {| wk_running := false; wk_conn := write_log message (wk_conn w) |}.

(* The body of while (running) in connection. *)
Definition connection_iter (ev : poll_result) (w : worker) : worker :=
  match ev with
  | SelectFailed => stop "Failed to select on socket" w
  | SelectTimeout => w
  | RecvFailed => stop "Failed to receive data" w
  | RecvData [] => stop "Connection closed by client" w
  | RecvData buf =>
      process_bytes buf
        {| wk_running := wk_running w;
           wk_conn := {| line := line (wk_conn w);
                         sock := sock (wk_conn w) ++ [Recv buf] |} |}
  end.

(* The locals of connection once the first prompt is out. *)
Definition conn_init : conn :=
  send ">>" {| line := EmptyString; sock := [] |}.

(* while (running) { ... } over the results the socket gives, as long as
   no other thread touches `running`. *)
Fixpoint connection_loop (evs : list poll_result) (w : worker) : worker :=
  match evs with
  | [] => w
  | ev :: rest =>
      if wk_running w then connection_loop rest (connection_iter ev w)
      else w
  end.

Definition connection (evs : list poll_result) (running0 : bool) : worker :=
  connection_loop evs {| wk_running := running0; wk_conn := conn_init |}.

(* --------------------------------------------------------------------- *)
(* The accept loop of main and the worker threads                        *)
(* --------------------------------------------------------------------- *)

(* Where the thread started by std::async is: not yet run, inside
   connection, or returned (socket closed, future ready). *)
Inductive phase : Type := Started | Looping | Returned.

Record thread : Type := Thread {
  th_phase : phase;
  th_conn : conn
}.

(* Where main is: at the head of while (running), with the test of
   `running` and then the select next; past that test, in select and
   accept; in the loop that waits for the hand-over of the socket;
   inside the clean-up loop with its iterator at index i; in the final
   wait on thread k; past the close of the listening socket. *)
Inductive main_pc : Type :=
| AtSelect
| InSelect
| Handover
| InReap (i : nat)
| Joining (k : nat)
| Exited.

(* What cv.wait_for returns. *)
Inductive cv_status : Type := no_timeout | timeout.

(* The process.  `workers` holds every thread std::async has started, a
   future is the index of its thread; `threads` is the vector of futures
   of main.  Of the hand-over of client_socket the model has the loop
   in which main waits, with the results of wait_for given from
   outside; what the mutex and the condition variable do between the
   two threads is not part of it: a started thread owns its socket. *)
Record server : Type := Server {
  srv_running : bool;
  workers : list thread;
  threads : list nat;
  pc : main_pc;
  srv_log : list string
}.

(* static std::atomic<bool> running{true}; main after listen succeeded. *)
Definition server_init : server :=
  {| srv_running := true; workers := []; threads := [];
     pc := AtSelect; srv_log := ["Hello"] |}.

(* What select and accept give main in one turn of its loop. *)
Inductive accept_result : Type :=
| ListenSelectFailed   (* select returned -1 *)
| ListenTimeout        (* select returned 0 *)
| AcceptFailed         (* accept returned -1 *)
| Accepted.            (* accept returned a socket *)

(* i->wait_for(std::chrono::seconds(0)) == std::future_status::ready *)
Definition future_ready (s : server) (h : nat) : bool :=
  match workers s !! h with
  | Some t => match th_phase t with Returned => true | _ => false end
  | None => false
  end.

Definition set_pc (p : main_pc) (s : server) : server :=
  {| srv_running := srv_running s; workers := workers s;
     threads := threads s; pc := p; srv_log := srv_log s |}.

Definition server_log (message : string) (s : server) : server :=
  {| srv_running := srv_running s; workers := workers s;
     threads := threads s; pc := pc s; srv_log := srv_log s ++ [message] |}.

(* One turn of the clean-up loop
     while (i != std::end(threads)) {
       if (i->wait_for(0s) == ready) { i->get(); threads.erase(i); } }
   The iterator is neither advanced nor reassigned: after the erase it
   addresses the same slot of the vector. *)
Definition reap_iter (i : nat) (s : server) : server :=
  match threads s !! i with
  | None => set_pc AtSelect s
  | Some h =>
      if future_ready s h then
        {| srv_running := srv_running s; workers := workers s;
           threads := delete i (threads s); pc := InReap i;
           srv_log := srv_log s |}
      else set_pc (InReap i) s
  end.

(* std::async + threads.emplace_back(std::move(future)); main goes on to
   the loop while (cv.wait_for(cl, 100ms) != std::cv_status::no_timeout). *)
Definition spawn (s : server) : server :=
  {| srv_running := srv_running s;
     workers := workers s ++
                [{| th_phase := Started;
                    th_conn := {| line := EmptyString; sock := [] |} |}];
     threads := threads s ++ [length (workers s)];
     pc := Handover; srv_log := srv_log s |}.

(* One step of the main thread other than a return of wait_for.  At
   the head of the loop it is the test of `running`, and ev plays no
   part; past the test it is the select, and the accept when the
   socket is readable, with no further look at `running`; in the
   hand-over loop main does not move. *)
Definition main_step (ev : accept_result) (s : server) : server :=
  match pc s with
  | AtSelect =>
      if srv_running s then set_pc InSelect s else set_pc (Joining 0) s
  | InSelect =>
      match ev with
      | ListenSelectFailed =>
          set_pc AtSelect (server_log "Failed to select on socket" s)
      | ListenTimeout => set_pc (InReap 0) s
      | AcceptFailed =>
          set_pc AtSelect (server_log "Failed to accept connection" s)
      | Accepted => spawn s
      end
  | Handover => s
  | InReap i => reap_iter i s
  | Joining k =>
      match threads s !! k with
      | None => set_pc Exited s
      | Some h => if future_ready s h then set_pc (Joining (S k)) s else s
      end
  | Exited => s
  end.

(* One return of cv.wait_for in the hand-over loop: the loop tests
   neither `running` nor a predicate, and ends on no_timeout only. *)
Definition main_wait (status : cv_status) (s : server) : server :=
  match pc s with
  | Handover =>
      match status with
      | no_timeout => set_pc AtSelect s
      | timeout => s
      end
  | _ => s
  end.

Definition set_worker (i : nat) (t : thread) (running' : bool) (s : server)
  : server :=
  {| srv_running := running'; workers := <[i := t]> (workers s);
     threads := threads s; pc := pc s; srv_log := srv_log s |}.

(* One step of thread i: the first prompt; or one test of while (running)
   followed by the loop body or, when the test fails, by the return from
   connection and close(my_socket). *)
Definition worker_step (i : nat) (ev : poll_result) (s : server) : server :=
  match workers s !! i with
  | None => s
  | Some t =>
      match th_phase t with
      | Started =>
          set_worker i {| th_phase := Looping; th_conn := conn_init |}
            (srv_running s) s
      | Looping =>
          if srv_running s then
            let w := connection_iter ev
                       {| wk_running := true; wk_conn := th_conn t |} in
            set_worker i {| th_phase := Looping; th_conn := wk_conn w |}
              (wk_running w) s
          else
            set_worker i
              {| th_phase := Returned;
                 th_conn := {| line := line (th_conn t);
                               sock := sock (th_conn t) ++ [Close] |} |}
              false s
      | Returned => s
      end
  end.

(* A schedule names, step by step, the thread that runs and what its
   socket gives it, or what wait_for returns to main. *)
Inductive label : Type :=
| MainStep (ev : accept_result)
| MainWait (status : cv_status)
| WorkerStep (i : nat) (ev : poll_result).

Definition server_step (l : label) (s : server) : server :=
  match l with
  | MainStep ev => main_step ev s
  | MainWait status => main_wait status s
  | WorkerStep i ev => worker_step i ev s
  end.

(* The steps of main for one connection: the test of `running`, the
   select and accept, the return of the hand-over wait. *)
Definition accept_one : list label :=
  [MainStep Accepted; MainStep Accepted; MainWait no_timeout].

(* The steps of main for one select that times out. *)
Definition select_timeout : list label :=
  [MainStep ListenTimeout; MainStep ListenTimeout].

Definition server_run (ls : list label) (s : server) : server :=
  foldl (fun s l => server_step l s) s ls.

(* --------------------------------------------------------------------- *)
(* Reference definitions used in the statements                          *)
(* --------------------------------------------------------------------- *)

(* p holds of every character of s. *)
Fixpoint all_chr (p : ascii -> bool) (s : string) : bool :=
  match s with
  | EmptyString => true
  | String chr rest => p chr && all_chr p rest
  end.

(* Splitting on white space as the specification words it: a run of
   white space is one delimiter, and white space at either end gives no
   empty token.  cur is the token being collected. *)
Fixpoint split_from (cur : string) (s : string) : list string :=
  match s with
  | EmptyString =>
      match cur with EmptyString => [] | String _ _ => [cur] end
  | String chr rest =>
      if isspace chr then
        match cur with
        | EmptyString => split_from EmptyString rest
        | String _ _ => cur :: split_from EmptyString rest
        end
      else split_from (cur +:+ String chr EmptyString) rest
  end.

Definition split_whitespace (s : string) : list string :=
  split_from EmptyString s.

(* The send that echoes one character. *)
Definition echo (chr : ascii) : syscall := Send (String chr EmptyString).

(* Is this call a send of exactly this payload? *)
Definition is_send (payload : string) (e : syscall) : bool :=
  match e with
  | Send p => String.eqb p payload
  | _ => false
  end.

Definition count_send (payload : string) (trace : list syscall) : nat :=
  length (List.filter (is_send payload) trace).

(* The bytes recv has delivered, in order. *)
Fixpoint received (trace : list syscall) : list ascii :=
  match trace with
  | [] => []
  | Recv buf :: rest => buf ++ received rest
  | _ :: rest => received rest
  end.

Definition terminators (buf : list ascii) : nat :=
  length (List.filter is_terminator buf).

(* One first prompt, at the very start, and after it one prompt per line
   terminator received. *)
Definition prompts_ok (trace : list syscall) : Prop :=
  head trace = Some (Send ">>") /\
  count_send ">>" trace = 1 /\
  count_send prompt trace = terminators (received trace).

(* k copies of what dir writes. *)
Fixpoint dir_output (k : nat) : string :=
  match k with
  | 0 => EmptyString
  | S k' => "Directory..." +:+ endl +:+ dir_output k'
  end.

(* The results of select and recv on which connection gives up: select
   or recv failed, or recv returned no bytes. *)
Definition io_failure (ev : poll_result) : bool :=
  match ev with
  | SelectFailed | RecvFailed | RecvData [] => true
  | SelectTimeout | RecvData (_ :: _) => false
  end.

(* Running a list of tokens through the table, first token first. *)
Definition dispatch_all (toks : list string) (st : cmd_state) : cmd_state :=
  foldl (fun st token => dispatch_token token st) st toks.

(* Every thread that has run has sent the first prompt once, first of
   all, and since then one prompt per terminator it received. *)
Definition thread_ok (t : thread) : Prop :=
  match th_phase t with
  | Started => sock (th_conn t) = []
  | _ => prompts_ok (sock (th_conn t))
  end.

(* --------------------------------------------------------------------- *)
(* Reference definitions for the threads and their sockets               *)
(* --------------------------------------------------------------------- *)

(* What may stand on a socket before its close: a receive, a log line of
   the worker, or the send of the first prompt, of the prompt after a
   line, of a line break, of one printable character, or of one or more
   copies of the line dir writes. *)
Definition wire_ok (e : syscall) : Prop :=
  match e with
  | Send p =>
      p = ">>" \/ p = prompt \/ p = crlf \/
      (exists chr, isprint chr = true /\ p = String chr EmptyString) \/
      (exists k, p = dir_output (S k))
  | Recv _ | Log _ => True
  | Close => False
  end.

(* A thread that has not run has touched nothing; a thread in its loop
   has not closed its socket; a thread that returned closed it as its
   last call, once. *)
Definition thread_trace_ok (t : thread) : Prop :=
  match th_phase t with
  | Started => sock (th_conn t) = []
  | Looping => Forall wire_ok (sock (th_conn t))
  | Returned =>
      exists pre, sock (th_conn t) = pre ++ [Close] /\ Forall wire_ok pre
  end.

Definition is_close (e : syscall) : bool :=
  match e with Close => true | _ => false end.

Definition count_close (trace : list syscall) : nat :=
  length (List.filter is_close trace).

(* The bytes recv returns in one turn of the loop of connection. *)
Definition recv_bytes (ev : poll_result) : list ascii :=
  match ev with
  | RecvData buf => buf
  | _ => []
  end.

(* The bytes the results evs hand to connection, from the state w on:
   those of the results the loop gets to while `running` is true. *)
Fixpoint consumed (evs : list poll_result) (w : worker) : list ascii :=
  match evs with
  | [] => []
  | ev :: rest =>
      if wk_running w
      then recv_bytes ev ++ consumed rest (connection_iter ev w)
      else []
  end.

(* The bytes one step of a schedule hands to thread i when it is taken
   in state s: those of a recv of thread i, which the thread makes in
   its loop while `running` is true. *)
Definition step_delivered (i : nat) (l : label) (s : server) : list ascii :=
  match l with
  | WorkerStep j ev =>
      if Nat.eqb j i && srv_running s then
        match workers s !! i with
        | Some t =>
            match th_phase t with
            | Looping => recv_bytes ev
            | _ => []
            end
        | None => []
        end
      else []
  | _ => []
  end.

(* The bytes a schedule hands to thread i, from state s on. *)
Fixpoint delivered (i : nat) (ls : list label) (s : server) : list ascii :=
  match ls with
  | [] => []
  | l :: rest => step_delivered i l s ++ delivered i rest (server_step l s)
  end.

(* What thread i has received in state s. *)
Definition received_by (s : server) (i : nat) : list ascii :=
  match workers s !! i with
  | Some t => received (sock (th_conn t))
  | None => []
  end.

(* What main relies on in its last loop: a thread that is no longer in
   the vector has returned; the final wait has passed only futures that
   are ready. *)
Definition join_ok (s : server) : Prop :=
  (forall j t, workers s !! j = Some t ->
               j ∈ threads s \/ th_phase t = Returned) /\
  match pc s with
  | Joining k =>
      forall j h, j < k -> threads s !! j = Some h -> future_ready s h = true
  | Exited => forall h, h ∈ threads s -> future_ready s h = true
  | _ => True
  end.

(* Two turns for every started thread: enough for each to test `running`
   once. *)
Fixpoint worker_turns (n : nat) : list label :=
  match n with
  | 0 => []
  | S n' =>
      worker_turns n' ++ [WorkerStep n' SelectTimeout; WorkerStep n' SelectTimeout]
  end.

(* An upper bound on the steps main still takes once `running` is false,
   every future is ready and main is neither in select nor in the
   hand-over loop. *)
Definition main_turns_left (s : server) : nat :=
  match pc s with
  | Exited => 0
  | Joining k => S (length (threads s) - k)
  | AtSelect => length (threads s) + 2
  | InReap _ => 2 * length (threads s) + 3
  | InSelect | Handover => 0
  end.

(* main is neither in select and accept nor in the hand-over loop. *)
Definition settled (s : server) : Prop :=
  match pc s with
  | InSelect | Handover => False
  | _ => True
  end.

(* The steps that do not end the hand-over loop: all but a wait_for
   that returns no_timeout. *)
Definition keeps_waiting (l : label) : bool :=
  match l with
  | MainWait no_timeout => false
  | _ => true
  end.

(* How many connections main can still accept without a new test of
   `running`: the one whose select it is in. *)
Definition pending_accepts (s : server) : nat :=
  match pc s with
  | InSelect => 1
  | _ => 0
  end.

(* Is the character one of a .. z? *)
Definition islower (chr : ascii) : bool :=
  let n := nat_of_ascii chr in (97 <=? n)%nat && (n <=? 122)%nat.

(* Does the string hold a space? *)
Fixpoint has_space (s : string) : bool :=
  match s with
  | EmptyString => false
  | String chr rest => Ascii.eqb chr " " || has_space rest
  end.

(* Is this call the send of a single character? *)
Definition is_echo (e : syscall) : bool :=
  match e with
  | Send (String _ EmptyString) => true
  | _ => false
  end.

Definition count_echo (trace : list syscall) : nat :=
  length (List.filter is_echo trace).

(* --------------------------------------------------------------------- *)
(* CommandLine: the table of options                                     *)
(* --------------------------------------------------------------------- *)

Inductive HasValue : Type := No | Required | Optional.

Inductive Occurs : Type := AtLeast | AtMost | Exactly.

(* struct CommandLineOption.  The int members are integers: count only
   ever grows by one per result of getopt_long, so it stays far below
   the range of int. *)
Record CommandLineOption : Type := {
  long_name : string;
  short_name : ascii;
  required : bool;
  has_value : HasValue;
  occurs_type : Occurs;
  occurs_value : Z;
  help : string;
  present : Z;
  count : Z;
  value : list string
}.

(* static const std::vector<std::string> empty{ "" }; *)
Definition empty : list string := [EmptyString].

(* void CommandLine::AddOption(...).  The members present and count of
   the new element are not initialised; present0 and count0 stand for
   whatever they hold. *)
Definition AddOption (long_name0 : string) (short_name0 : ascii)
    (required0 : bool) (has_value0 : HasValue) (occurs_type0 : Occurs)
    (occurs_value0 : Z) (help0 : string) (present0 count0 : Z)
    (options : list CommandLineOption) : list CommandLineOption :=
  options ++
  [{| long_name := long_name0; short_name := short_name0;
      required := required0; has_value := has_value0;
      occurs_type := occurs_type0; occurs_value := occurs_value0;
      help := help0; present := present0; count := count0; value := [] |}].

(* void Clean() { options.clear(); } *)
Definition Clean (options : list CommandLineOption) : list CommandLineOption :=
  [].

(* FindOption(const std::string &long_name): std::ranges::find_if; the
   iterator is the position together with the element, None is end(). *)
Definition FindOption (name0 : string) (options : list CommandLineOption)
  : option (nat * CommandLineOption) :=
  list_find (fun o => long_name o = name0) options.

(* FindOption(char short_name) *)
Definition FindOption_short (chr : ascii) (options : list CommandLineOption)
  : option (nat * CommandLineOption) :=
  list_find (fun o => short_name o = chr) options.

(* (i != options.cend()) && (i->count > 0) ? i->value : empty *)
Definition values_at (found : option (nat * CommandLineOption)) : list string :=
  match found with
  | Some (_, o) => if (0 <? count o)%Z then value o else empty
  | None => empty
  end.

(* i != options.cend() && (i->count > 0) *)
Definition occurred_at (found : option (nat * CommandLineOption)) : bool :=
  match found with
  | Some (_, o) => (0 <? count o)%Z
  | None => false
  end.

Definition GetOptionValues (name0 : string) (options : list CommandLineOption)
  : list string := values_at (FindOption name0 options).

Definition GetOptionValues_short (chr : ascii)
    (options : list CommandLineOption) : list string :=
  values_at (FindOption_short chr options).

Definition IsOptionValue (name0 : string) (options : list CommandLineOption)
  : bool := occurred_at (FindOption name0 options).

Definition IsOptionValue_short (chr : ascii)
    (options : list CommandLineOption) : bool :=
  occurred_at (FindOption_short chr options).

(* --------------------------------------------------------------------- *)
(* CommandLine: what is handed to getopt_long                            *)
(* --------------------------------------------------------------------- *)

(* struct option of <getopt.h>: name is None for the null pointer; flag
   is the index of the element of options whose member present it
   points to. *)
Record long_option : Type := {
  name : option string;
  has_arg : Z;
  flag : option nat;
  val : Z
}.

Definition no_argument : Z := 0.
Definition required_argument : Z := 1.
Definition optional_argument : Z := 2.

(* memset(&option, 0, sizeof(option)) *)
Definition long_opts_end : long_option :=
  {| name := None; has_arg := 0; flag := None; val := 0 |}.

(* i->present = 0; i->count = 0; *)
Definition clear_flags (o : CommandLineOption) : CommandLineOption :=
  {| long_name := long_name o; short_name := short_name o;
     required := required o; has_value := has_value o;
     occurs_type := occurs_type o; occurs_value := occurs_value o;
     help := help o; present := 0; count := 0; value := value o |}.

(* The entry pushed for element i when its long name is not empty. *)
Definition long_entry (i : nat) (o : CommandLineOption) : long_option :=
  {| name := Some (c_str (long_name o));
     has_arg := match has_value o with
                | Required => required_argument
                | Optional => optional_argument
                | No => no_argument
                end;
     flag := Some i;
     val := 1 |}.

(* What is appended to short_opts for one element. *)
Definition short_entry (o : CommandLineOption) : string :=
  if Ascii.eqb (short_name o) NUL then EmptyString
  else String (short_name o)
         match has_value o with
         | Required => ":"
         | Optional => "::"
         | No => EmptyString
         end.

(* The for loop of BuildParserParameters from element i on. *)
Fixpoint build_loop (i : nat) (options : list CommandLineOption)
    (short_opts : string) (long_opts : list long_option)
  : list CommandLineOption * string * list long_option :=
  match options with
  | [] => ([], short_opts, long_opts)
  | o :: rest =>
      let long_opts' :=
        match long_name o with
        | EmptyString => long_opts
        | String _ _ => long_opts ++ [long_entry i o]
        end in
      let '(rest', short_opts'', long_opts'') :=
        build_loop (S i) rest (short_opts +:+ short_entry o) long_opts' in
      (clear_flags o :: rest', short_opts'', long_opts'')
  end.

(* void CommandLine::BuildParserParameters(short_opts, long_opts) *)
Definition BuildParserParameters (options : list CommandLineOption)
    (short_opts : string) (long_opts : list long_option)
  : list CommandLineOption * string * list long_option :=
  let '(options', short_opts', long_opts') :=
    build_loop 0 options short_opts long_opts in
  (options', short_opts', long_opts' ++ [long_opts_end]).

(* --------------------------------------------------------------------- *)
(* CommandLine: the results of getopt_long                               *)
(* --------------------------------------------------------------------- *)

(* What one call of getopt_long leaves behind: the value returned, the
   index it stored for a long option, optarg (None is the null pointer)
   and the text of argv[optind - 1]. *)
Record getopt_call : Type := {
  opt : Z;
  long_opt_index : nat;
  optarg : option string;
  last_arg : string
}.

Definition set_present (v : Z) (o : CommandLineOption) : CommandLineOption :=
  {| long_name := long_name o; short_name := short_name o;
     required := required o; has_value := has_value o;
     occurs_type := occurs_type o; occurs_value := occurs_value o;
     help := help o; present := v; count := count o; value := value o |}.

(* The value an int holds after an arithmetic result z: 32 bits, two's
   complement, so INT_MAX + 1 is INT_MIN. *)
Definition int_wrap (z : Z) : Z :=
  ((z + 2147483648) mod 4294967296 - 2147483648)%Z.

(* option->count++; if (optarg) option->value.emplace_back(optarg);
   count is an int. *)
Definition count_match (arg : option string) (o : CommandLineOption)
  : CommandLineOption :=
  {| long_name := long_name o; short_name := short_name o;
     required := required o; has_value := has_value o;
     occurs_type := occurs_type o; occurs_value := occurs_value o;
     help := help o; present := present o; count := int_wrap (count o + 1);
     value := match arg with
              | Some text => value o ++ [text]
              | None => value o
              end |}.

(* What getopt_long itself does on a long match: *flag = val. *)
Definition getopt_sets_flag (long_opts : list long_option) (index : nat)
    (options : list CommandLineOption) : list CommandLineOption :=
  match long_opts !! index with
  | Some entry =>
      match flag entry with
      | Some i => alter (set_present (val entry)) i options
      | None => options
      end
  | None => options
  end.

(* static_cast<char>(opt) *)
Definition char_of_opt (z : Z) : ascii := ascii_of_N (Z.to_N (z mod 256)).

(* The body of the do loop of ParseCommandLine for a result other than
   -1: 63 is '?', 58 is ':'.  options[long_opt_index] with an index
   outside the table, which getopt_long does not return for the
   parameters built from it, is taken to change nothing. *)
Definition parse_call (long_opts : list long_option) (g : getopt_call)
    (st : list CommandLineOption * string)
  : list CommandLineOption * string :=
  let '(options, error_message) := st in
  if (opt g =? 63)%Z || (opt g =? 58)%Z then
    (options,
     error_message +:+ "Error: Unknown option or missing value " +:+
     last_arg g +:+ endl)
  else if (opt g =? 0)%Z then
    (alter (count_match (optarg g)) (long_opt_index g)
       (getopt_sets_flag long_opts (long_opt_index g) options),
     error_message)
  else
    match FindOption_short (char_of_opt (opt g)) options with
    | Some (i, _) => (alter (count_match (optarg g)) i options, error_message)
    | None => (options, error_message)
    end.

(* void CommandLine::ParseCommandLine(...): the do loop over the results
   of getopt_long, up to the first -1. *)
Fixpoint ParseCommandLine (calls : list getopt_call)
    (long_opts : list long_option) (st : list CommandLineOption * string)
  : list CommandLineOption * string :=
  match calls with
  | [] => st
  | g :: rest =>
      if (opt g =? -1)%Z then st
      else ParseCommandLine rest long_opts (parse_call long_opts g st)
  end.

(* --------------------------------------------------------------------- *)
(* CommandLine: validation                                               *)
(* --------------------------------------------------------------------- *)

(* The line written for one element of options, None when the element
   passes. *)
Definition validate_message (o : CommandLineOption) : option string :=
  if (count o =? 0)%Z then
    if required o
    then Some ("Error: option " +:+ long_name o +:+ " is required" +:+ endl)
    else None
  else
    match occurs_type o with
    | AtLeast =>
        if (count o <? occurs_value o)%Z
        then Some ("Error: option " +:+ long_name o +:+
                   " must occur at least " +:+ pretty (occurs_value o) +:+
                   " time(s)" +:+ endl)
        else None
    | AtMost =>
        if (occurs_value o <? count o)%Z
        then Some ("Error: option " +:+ long_name o +:+
                   " must occur at most " +:+ pretty (occurs_value o) +:+
                   " time(s)" +:+ endl)
        else None
    | Exactly =>
        if negb (count o =? occurs_value o)%Z
        then Some ("Error: option " +:+ long_name o +:+
                   " must occur exactly " +:+ pretty (occurs_value o) +:+
                   " time(s)" +:+ endl)
        else None
    end.

(* bool CommandLine::ValidateOptions(std::stringstream &error_message):
   the loop from a given rc. *)
Fixpoint validate_loop (options : list CommandLineOption) (rc : bool)
    (error_message : string) : bool * string :=
  match options with
  | [] => (rc, error_message)
  | o :: rest =>
      match validate_message o with
      | Some text => validate_loop rest false (error_message +:+ text)
      | None => validate_loop rest rc error_message
      end
  end.

Definition ValidateOptions (options : list CommandLineOption)
    (error_message : string) : bool * string :=
  validate_loop options true error_message.

(* bool CommandLine::Parse(argc, argv, error_message): calls are the
   results getopt_long gives for argv and the parameters built. *)
Definition Parse (calls : list getopt_call)
    (st : list CommandLineOption * string)
  : bool * (list CommandLineOption * string) :=
  let '(options, error_message) := st in
  let '(options1, short_opts, long_opts) :=
    BuildParserParameters options EmptyString [] in
  let '(options2, error_message2) :=
    ParseCommandLine calls long_opts (options1, error_message) in
  let '(rc, error_message3) := ValidateOptions options2 error_message2 in
  (rc, (options2, error_message3)).

(* strrchr(s, '/') + 1: the text behind the last '/', None when there is
   no '/'. *)
Fixpoint after_last_slash (s : string) : option string :=
  match s with
  | EmptyString => None
  | String chr rest =>
      match after_last_slash rest with
      | Some tail => Some tail
      | None => if Ascii.eqb chr "/" then Some rest else None
      end
  end.

(* The name PrintUsage prints for argv[0], and write_log for the file. *)
Definition executable_name (argv0 : string) : string :=
  match after_last_slash (c_str argv0) with
  | Some tail => tail
  | None => c_str argv0
  end.

(* The table main builds: host and port, each with a value, each at most
   once. *)
Definition cmd_run (present0 count0 present1 count1 : Z)
  : list CommandLineOption :=
  AddOption "port" "p" false Required AtMost 1 "TCP port to bind to."
    present1 count1
    (AddOption "host" "h" false Required AtMost 1
       "IP host address to bind to." present0 count0 []).

(* --------------------------------------------------------------------- *)
(* Reference definitions for CommandLine                                 *)
(* --------------------------------------------------------------------- *)

(* The members of an option that AddOption sets and nothing changes. *)
Definition static (o : CommandLineOption)
  : string * ascii * bool * HasValue * Occurs * Z * string :=
  (long_name o, short_name o, required o, has_value o, occurs_type o,
   occurs_value o, help o).

(* !i->long_name.empty() *)
Definition named (o : CommandLineOption) : bool :=
  match long_name o with EmptyString => false | String _ _ => true end.

(* How many of the first f options have a long name. *)
Definition named_before (f : nat) (options : list CommandLineOption) : nat :=
  length (List.filter named (take f options)).

(* opt == '?' || opt == ':' *)
Definition is_error (g : getopt_call) : bool :=
  (opt g =? 63)%Z || (opt g =? 58)%Z.

(* The results the do loop processes: those before the first -1. *)
Fixpoint live (calls : list getopt_call) : list getopt_call :=
  match calls with
  | [] => []
  | g :: rest => if (opt g =? -1)%Z then [] else g :: live rest
  end.

(* Is element k of options the one ParseCommandLine counts this result
   for? *)
Definition hits (options : list CommandLineOption) (k : nat)
    (g : getopt_call) : bool :=
  if is_error g then false
  else if (opt g =? 0)%Z then Nat.eqb (long_opt_index g) k
  else match FindOption_short (char_of_opt (opt g)) options with
       | Some (i, _) => Nat.eqb i k
       | None => false
       end.

Definition occurrences (options : list CommandLineOption) (k : nat)
    (calls : list getopt_call) : nat :=
  length (List.filter (hits options k) (live calls)).

(* Does getopt_long store 1 in present of element k for this result?
   It does on a long match of an entry whose flag points to element
   k. *)
Definition flags (long_opts : list long_option) (k : nat) (g : getopt_call)
  : bool :=
  if is_error g then false
  else if (opt g =? 0)%Z then
    match long_opts !! long_opt_index g with
    | Some entry =>
        match flag entry with
        | Some i => Nat.eqb i k
        | None => false
        end
    | None => false
    end
  else false.

(* What ValidateOptions accepts of one option. *)
Definition option_valid (o : CommandLineOption) : Prop :=
  (count o = 0%Z /\ required o = false) \/
  (count o <> 0%Z /\
   match occurs_type o with
   | AtLeast => (occurs_value o <= count o)%Z
   | AtMost => (count o <= occurs_value o)%Z
   | Exactly => count o = occurs_value o
   end).

(* The entries the loop of BuildParserParameters pushes for a table
   whose first element has index i, and the text it appends to
   short_opts. *)
Fixpoint long_entries (i : nat) (options : list CommandLineOption)
  : list long_option :=
  match options with
  | [] => []
  | o :: rest =>
      (if named o then [long_entry i o] else []) ++ long_entries (S i) rest
  end.

Fixpoint short_entries (options : list CommandLineOption) : string :=
  match options with
  | [] => EmptyString
  | o :: rest => short_entry o +:+ short_entries rest
  end.

(* if (optarg) option->value.emplace_back(optarg): what one result adds. *)
Definition stored (g : getopt_call) : list string :=
  match optarg g with
  | Some text => [text]
  | None => []
  end.

(* The arguments of the results counted for element k, in order. *)
Definition stored_values (options : list CommandLineOption) (k : nat)
    (calls : list getopt_call) : list string :=
  flat_map stored (List.filter (hits options k) (live calls)).

(* Does the string hold a '/'? *)
Fixpoint has_slash (s : string) : bool :=
  match s with
  | EmptyString => false
  | String chr rest => Ascii.eqb chr "/" || has_slash rest
  end.

(* ===================================================================== *)
(* Properties                                                            *)
(* ===================================================================== *)

(* --------------------------------------------------------------------- *)
(* The tokenising loop                                                   *)
(* --------------------------------------------------------------------- *)

Lemma command_loop_step save st :
  command_loop save st =
  match strtok_r save with
  | None => st
  | Some (token, save') => command_loop save' (dispatch_token token st)
  end.
Proof.
  funelim (command_loop save st);
    match goal with E : strtok_r _ = _ |- _ => rewrite E end; reflexivity.
Qed.

Lemma strtok_all_step save :
  strtok_all save =
  match strtok_r save with
  | None => []
  | Some (token, save') => token :: strtok_all save'
  end.
Proof.
  funelim (strtok_all save);
    match goal with E : strtok_r _ = _ |- _ => rewrite E end; reflexivity.
Qed.

(* Induction along the calls of strtok_r. *)
Lemma strtok_ind (P : string -> Prop) :
  (forall save,
      (forall token save', strtok_r save = Some (token, save') -> P save') ->
      P save) ->
  forall save, P save.
Proof.
  intros step save.
  remember (String.length save) as n eqn:Hn.
  revert save Hn. induction n as [n IH] using lt_wf_ind.
  intros save ->. apply step. intros token save' Hnext.
  eapply IH; [|reflexivity]. eapply strtok_r_shrinks, Hnext.
Qed.

(* The loop calls the table once per token, in the order strtok_r hands
   the tokens out; nothing makes it leave early. *)
Lemma command_loop_dispatch_all save :
  forall st, command_loop save st = dispatch_all (strtok_all save) st.
Proof.
  induction save as [save IH] using strtok_ind. intros st.
  rewrite command_loop_step, strtok_all_step.
  destruct (strtok_r save) as [[token save']|] eqn:E; [|reflexivity].
  simpl. eapply IH. reflexivity.
Qed.

Lemma dispatch_all_app toks1 toks2 st :
  dispatch_all (toks1 ++ toks2) st = dispatch_all toks2 (dispatch_all toks1 st).
Proof. unfold dispatch_all. apply foldl_app. Qed.

Lemma dispatch_all_cons token toks st :
  dispatch_all (token :: toks) st = dispatch_all toks (dispatch_token token st).
Proof. reflexivity. Qed.

Lemma tokens_EX : tokens !! "EX" = Some ex.
Proof. reflexivity. Qed.

Lemma tokens_DIR : tokens !! "DIR" = Some dir.
Proof. reflexivity. Qed.

Lemma tokens_other (key : string) :
  key <> "EX" -> key <> "DIR" -> tokens !! key = None.
Proof.
  intros H1 H2. unfold tokens.
  rewrite lookup_insert_ne by congruence.
  rewrite lookup_insert_ne by congruence.
  apply lookup_empty.
Qed.

Lemma tokens_cases (key : string) :
  (key = "EX" /\ tokens !! key = Some ex) \/
  (key = "DIR" /\ tokens !! key = Some dir) \/
  (key <> "EX" /\ key <> "DIR" /\ tokens !! key = None).
Proof.
  destruct (decide (key = "EX")) as [->|H1]; [left; split; reflexivity|].
  destruct (decide (key = "DIR")) as [->|H2];
    [right; left; split; reflexivity|].
  right; right. auto using tokens_other.
Qed.

Lemma known_false token : known token = false -> tokens !! toupper token = None.
Proof.
  unfold known. intros H. apply bool_decide_eq_false in H.
  destruct (tokens !! toupper token); [|reflexivity].
  exfalso. apply H. eauto.
Qed.

Lemma dispatch_unknown token st : known token = false -> dispatch_token token st = st.
Proof. intros H. unfold dispatch_token. rewrite (known_false _ H). reflexivity. Qed.

Lemma dispatch_all_filter_known toks :
  forall st, dispatch_all toks st = dispatch_all (List.filter known toks) st.
Proof.
  induction toks as [|token toks IH]; intros st; [reflexivity|].
  simpl. destruct (known token) eqn:E; simpl.
  - apply IH.
  - rewrite (dispatch_unknown _ _ E). apply IH.
Qed.

(* --------------------------------------------------------------------- *)
(* std::string append                                                    *)
(* --------------------------------------------------------------------- *)

Lemma append_cons chr s t : String chr s +:+ t = String chr (s +:+ t).
Proof. reflexivity. Qed.

Lemma append_empty_r s : s +:+ EmptyString = s.
Proof.
  induction s as [|chr rest IH]; [reflexivity|].
  rewrite append_cons, IH. reflexivity.
Qed.

Lemma append_assoc s t u : (s +:+ t) +:+ u = s +:+ (t +:+ u).
Proof.
  induction s as [|chr rest IH]; [reflexivity|].
  rewrite !append_cons, IH. reflexivity.
Qed.

Lemma append_snoc_cons s chr t :
  (s +:+ String chr EmptyString) +:+ t = s +:+ String chr t.
Proof. rewrite append_assoc. reflexivity. Qed.

Lemma append_snoc_not_empty s chr : s +:+ String chr EmptyString <> EmptyString.
Proof. destruct s; discriminate. Qed.

(* --------------------------------------------------------------------- *)
(* Characters the line buffer can hold                                   *)
(* --------------------------------------------------------------------- *)

Ltac by_char chr :=
  destruct chr as [[] [] [] [] [] [] [] []]; try discriminate; try reflexivity.

Lemma isprint_not_NUL chr : isprint chr = true -> Ascii.eqb chr NUL = false.
Proof. by_char chr. Qed.

Lemma isprint_isspace chr :
  isprint chr = true -> isspace chr = Ascii.eqb chr " ".
Proof. by_char chr. Qed.

Lemma isprint_not_terminator chr :
  isprint chr = true -> is_terminator chr = false.
Proof. by_char chr. Qed.

Lemma c_str_printable s : all_chr isprint s = true -> c_str s = s.
Proof.
  induction s as [|chr rest IH]; simpl; [reflexivity|].
  intros [Hc Hr]%andb_true_iff.
  rewrite (isprint_not_NUL _ Hc), (IH Hr). reflexivity.
Qed.

Lemma all_chr_app p s1 s2 :
  all_chr p (s1 +:+ s2) = all_chr p s1 && all_chr p s2.
Proof.
  induction s1 as [|chr rest IH]; [reflexivity|].
  rewrite append_cons. simpl. rewrite IH. apply andb_assoc.
Qed.

(* --------------------------------------------------------------------- *)
(* strtok_r against a split on white space                               *)
(* --------------------------------------------------------------------- *)

Lemma strtok_all_empty : strtok_all EmptyString = [].
Proof. reflexivity. Qed.

Lemma strtok_all_space s : strtok_all (String " " s) = strtok_all s.
Proof.
  rewrite (strtok_all_step (String " " s)), (strtok_all_step s).
  reflexivity.
Qed.

Lemma strtok_all_chr chr s :
  Ascii.eqb chr " " = false ->
  strtok_all (String chr s) =
  String chr (fst (scan_token s)) :: strtok_all (snd (scan_token s)).
Proof.
  intros H. rewrite strtok_all_step. unfold strtok_r. simpl. rewrite H.
  simpl. rewrite H. destruct (scan_token s) as [tok save]. reflexivity.
Qed.

Lemma split_from_strtok s :
  all_chr isprint s = true ->
  forall cur,
    split_from cur s =
    match cur with
    | EmptyString => strtok_all s
    | String _ _ =>
        (cur +:+ fst (scan_token s)) :: strtok_all (snd (scan_token s))
    end.
Proof.
  induction s as [|chr rest IH]; simpl.
  - intros _ [|c cur]; [reflexivity|].
    rewrite append_empty_r. reflexivity.
  - intros [Hc Hr]%andb_true_iff cur.
    rewrite (isprint_isspace _ Hc).
    destruct (Ascii.eqb chr " ") eqn:E.
    + apply Ascii.eqb_eq in E as ->. rewrite strtok_all_space.
      rewrite (IH Hr EmptyString).
      destruct cur; [reflexivity|]. simpl. rewrite append_empty_r.
      reflexivity.
    + rewrite (IH Hr). rewrite (strtok_all_chr _ _ E).
      destruct (scan_token rest) as [tok save]. simpl.
      destruct cur as [|c cur]; [reflexivity|].
      rewrite append_snoc_cons. reflexivity.
Qed.

(* On a line of printable characters the loop of connection_command sees
   exactly the white-space separated words of the line. *)
Lemma strtok_all_split_whitespace line :
  all_chr isprint line = true ->
  strtok_all (c_str line) = split_whitespace line.
Proof.
  intros H. rewrite (c_str_printable _ H). unfold split_whitespace.
  rewrite (split_from_strtok _ H). reflexivity.
Qed.

(* --------------------------------------------------------------------- *)
(* Dispatch                                                              *)
(* --------------------------------------------------------------------- *)

Lemma connection_command_dispatch_all line st :
  connection_command line st = dispatch_all (strtok_all (c_str line)) st.
Proof. apply command_loop_dispatch_all. Qed.

Lemma dispatch_token_cases token st :
  (toupper token = "EX" /\ dispatch_token token st = ex st) \/
  (toupper token = "DIR" /\ dispatch_token token st = dir st) \/
  (known token = false /\ dispatch_token token st = st).
Proof.
  unfold dispatch_token, known.
  destruct (tokens_cases (toupper token)) as [[E ->]|[[E ->]|(_ & _ & ->)]].
  - left. split; [exact E|reflexivity].
  - right; left. split; [exact E|reflexivity].
  - right; right. split; [|reflexivity].
    apply bool_decide_eq_false. intros [x Hx]. discriminate.
Qed.

(* No table entry sets `running` back to true. *)
Lemma dispatch_token_running_false token st :
  running st = false -> running (dispatch_token token st) = false.
Proof.
  intros H.
  destruct (dispatch_token_cases token st) as [[_ ->]|[[_ ->]|[_ ->]]];
    simpl; auto.
Qed.

Lemma dispatch_all_running_false toks :
  forall st, running st = false -> running (dispatch_all toks st) = false.
Proof.
  induction toks as [|token toks IH]; intros st H; [exact H|].
  simpl. apply IH, dispatch_token_running_false, H.
Qed.

Lemma dispatch_all_EX toks :
  forall st, In "EX" (map toupper toks) -> running (dispatch_all toks st) = false.
Proof.
  induction toks as [|token toks IH]; intros st; simpl; [tauto|].
  intros [E|Hin]; [|apply IH, Hin].
  apply dispatch_all_running_false. unfold dispatch_token.
  rewrite E, tokens_EX. reflexivity.
Qed.

(** C7: the action bound to EX sets `running` to false, which is the
    shut-down state of the flag, and leaves the response stream as it
    was; the action bound to DIR appends the line "Directory..." to the
    response stream and leaves `running` as it was. *)
Theorem builtin_actions :
  tokens !! "EX" = Some ex /\
  tokens !! "DIR" = Some dir /\
  forall st,
    running (ex st) = false /\
    os (ex st) = os st /\
    os (dir st) = os st +:+ "Directory..." +:+ endl /\
    running (dir st) = running st.
Proof.
  split; [exact tokens_EX|]. split; [exact tokens_DIR|].
  intros st. repeat split.
Qed.

(** C6: for every line, a token whose uppercased form is not a key of
    the table changes neither the response stream nor `running`, and
    the line has the effect of its known tokens alone, run first to
    last. *)
Theorem unknown_tokens_ignored :
  forall line st,
    connection_command line st =
    dispatch_all (List.filter known (strtok_all (c_str line))) st /\
    forall token, tokens !! toupper token = None ->
                  dispatch_token token st = st.
Proof.
  intros line st. split.
  - rewrite connection_command_dispatch_all.
    apply dispatch_all_filter_known.
  - intros token H. unfold dispatch_token. rewrite H. reflexivity.
Qed.

Lemma unknown_tokens_ignored_witness :
  tokens !! toupper "foo" = None /\
  dispatch_token "foo" {| running := true; os := "" |} =
  {| running := true; os := "" |}.
Proof.
  split; [reflexivity|].
  apply (unknown_tokens_ignored "foo" {| running := true; os := "" |}).
  reflexivity.
Defined.

(* --------------------------------------------------------------------- *)
(* What a worker puts on its socket                                      *)
(* --------------------------------------------------------------------- *)

Lemma count_send_app payload t1 t2 :
  count_send payload (t1 ++ t2) = count_send payload t1 + count_send payload t2.
Proof. unfold count_send. rewrite List.filter_app, length_app. reflexivity. Qed.

Lemma received_app t1 t2 : received (t1 ++ t2) = received t1 ++ received t2.
Proof.
  induction t1 as [|e t1 IH]; [reflexivity|].
  destruct e; simpl; rewrite IH; [reflexivity| |reflexivity|reflexivity].
  apply app_assoc.
Qed.

Lemma terminators_app b1 b2 :
  terminators (b1 ++ b2) = terminators b1 + terminators b2.
Proof. unfold terminators. rewrite List.filter_app, length_app. reflexivity. Qed.

(* The response stream only ever holds copies of the line dir writes. *)
Lemma dispatch_all_os toks :
  forall st, exists k, os (dispatch_all toks st) = os st +:+ dir_output k.
Proof.
  induction toks as [|token toks IH]; intros st.
  - exists 0. simpl. rewrite append_empty_r. reflexivity.
  - simpl. destruct (IH (dispatch_token token st)) as [k Hk]. rewrite Hk.
    destruct (dispatch_token_cases token st) as [[_ ->]|[[_ ->]|[_ ->]]].
    + exists k. reflexivity.
    + exists (S k). simpl. rewrite !append_assoc. reflexivity.
    + exists k. reflexivity.
Qed.

Lemma response_shape line r :
  exists k,
    os (connection_command line {| running := r; os := EmptyString |}) =
    dir_output k.
Proof.
  rewrite connection_command_dispatch_all.
  destruct (dispatch_all_os (strtok_all (c_str line))
              {| running := r; os := EmptyString |}) as [k Hk].
  exists k. exact Hk.
Qed.

(* What process_line adds to the socket: nothing, or a line break and a
   response that is neither of the two prompts. *)
Lemma process_line_sock w :
  exists out,
    sock (wk_conn (process_line w)) = sock (wk_conn w) ++ out /\
    received out = [] /\
    count_send ">>" out = 0 /\
    count_send prompt out = 0.
Proof.
  unfold process_line. destruct (line (wk_conn w)) as [|chr rest] eqn:El.
  - exists []. rewrite app_nil_r. auto.
  - destruct (response_shape (String chr rest) (wk_running w)) as [k Hk].
    rewrite Hk. destruct k as [|k]; simpl.
    + exists []. rewrite app_nil_r. auto.
    + eexists [Send crlf; Send _]. rewrite <- app_assoc. simpl.
      split; [reflexivity|]. auto.
Qed.

Lemma process_chr_sock chr w :
  exists out,
    sock (wk_conn (process_chr chr w)) = sock (wk_conn w) ++ out /\
    received out = [] /\
    count_send ">>" out = 0 /\
    count_send prompt out = (if is_terminator chr then 1 else 0).
Proof.
  unfold process_chr. destruct (is_terminator chr) eqn:Et.
  - destruct (process_line_sock w) as (out & Hs & Hr & H1 & H2).
    exists (out ++ [Send prompt]). simpl. rewrite Hs, <- app_assoc.
    split; [reflexivity|].
    rewrite received_app, !count_send_app, Hr, H1, H2. auto.
  - destruct (isprint chr) eqn:Ep; simpl.
    + exists [echo chr]. split; [reflexivity|]. split; [reflexivity|].
      clear. split; by_char chr.
    + exists []. rewrite app_nil_r. auto.
Qed.

Lemma process_bytes_sock buf :
  forall w, exists out,
    sock (wk_conn (process_bytes buf w)) = sock (wk_conn w) ++ out /\
    received out = [] /\
    count_send ">>" out = 0 /\
    count_send prompt out = terminators buf.
Proof.
  induction buf as [|chr rest IH]; intros w; simpl.
  - exists []. rewrite app_nil_r. auto.
  - destruct (IH (process_chr chr w)) as (out2 & Hs2 & Hr2 & Ha2 & Hb2).
    destruct (process_chr_sock chr w) as (out1 & Hs1 & Hr1 & Ha1 & Hb1).
    exists (out1 ++ out2). rewrite Hs2, Hs1, <- app_assoc.
    split; [reflexivity|].
    rewrite received_app, !count_send_app, Hr1, Hr2, Ha1, Ha2, Hb1, Hb2.
    split; [reflexivity|]. split; [reflexivity|].
    unfold terminators. simpl. destruct (is_terminator chr); reflexivity.
Qed.





Lemma connection_iter_sock ev w :
  exists out,
    sock (wk_conn (connection_iter ev w)) = sock (wk_conn w) ++ out /\
    count_send ">>" out = 0 /\
    count_send prompt out = terminators (received out).
Proof.
  destruct ev as [| | |[|chr rest]].
  - eexists [Log _]. split; [reflexivity|]. split; reflexivity.
  - exists []. simpl. rewrite app_nil_r. split; [reflexivity|].
    split; reflexivity.
  - eexists [Log _]. split; [reflexivity|]. split; reflexivity.
  - eexists [Log _]. split; [reflexivity|]. split; reflexivity.
  - unfold connection_iter.
    match goal with |- context [process_bytes ?b ?w0] =>
      destruct (process_bytes_sock b w0) as (out & Hs & Hr & H1 & H2)
    end.
    rewrite Hs. exists ([Recv (chr :: rest)] ++ out).
    cbn [wk_conn sock]. rewrite <- app_assoc. split; [reflexivity|].
    rewrite received_app, !count_send_app, Hr, H1, H2.
    simpl received. rewrite !app_nil_r. split; reflexivity.
Qed.

Lemma prompts_ok_app trace out :
  prompts_ok trace ->
  count_send ">>" out = 0 ->
  count_send prompt out = terminators (received out) ->
  prompts_ok (trace ++ out).
Proof.
  intros (Hh & H1 & H2) Ha Hb. unfold prompts_ok.
  rewrite received_app, !count_send_app, terminators_app.
  split; [|lia].
  destruct trace; [discriminate|exact Hh].
Qed.

Lemma prompts_ok_init : prompts_ok (sock conn_init).
Proof. repeat split. Qed.

Lemma connection_iter_prompts_ok ev w :
  prompts_ok (sock (wk_conn w)) ->
  prompts_ok (sock (wk_conn (connection_iter ev w))).
Proof.
  intros H. destruct (connection_iter_sock ev w) as (out & -> & Ha & Hb).
  apply prompts_ok_app; assumption.
Qed.

Lemma connection_loop_prompts_ok evs :
  forall w, prompts_ok (sock (wk_conn w)) ->
            prompts_ok (sock (wk_conn (connection_loop evs w))).
Proof.
  induction evs as [|ev rest IH]; intros w H; simpl; [exact H|].
  destruct (wk_running w); [|exact H].
  apply IH, connection_iter_prompts_ok, H.
Qed.

(* --------------------------------------------------------------------- *)
(* Reachable states of the process                                       *)
(* --------------------------------------------------------------------- *)

Lemma server_run_snoc ls l s :
  server_run (ls ++ [l]) s = server_step l (server_run ls s).
Proof. unfold server_run. rewrite foldl_app. reflexivity. Qed.

(* A property of server_init kept by every step holds after every
   schedule. *)
Lemma server_run_ind (P : server -> Prop) :
  P server_init ->
  (forall l s, P s -> P (server_step l s)) ->
  forall ls, P (server_run ls server_init).
Proof.
  intros Hinit Hstep ls. induction ls as [|l ls IH] using rev_ind.
  - exact Hinit.
  - rewrite server_run_snoc. apply Hstep, IH.
Qed.

(* main touches the table of threads only to add a fresh one. *)
Lemma main_step_workers ev s :
  workers (main_step ev s) = workers s \/
  workers (main_step ev s) =
  workers s ++ [{| th_phase := Started;
                   th_conn := {| line := EmptyString; sock := [] |} |}].
Proof.
  unfold main_step, reap_iter.
  destruct (pc s) as [| | |i|k|].
  - destruct (srv_running s); simpl; auto.
  - destruct ev; simpl; auto.
  - auto.
  - destruct (threads s !! i) as [h|]; [destruct (future_ready s h)|];
      simpl; auto.
  - destruct (threads s !! k) as [h|]; [destruct (future_ready s h)|];
      simpl; auto.
  - auto.
Qed.

Lemma main_wait_workers status s : workers (main_wait status s) = workers s.
Proof.
  unfold main_wait. destruct (pc s); try reflexivity.
  destruct status; reflexivity.
Qed.

Lemma main_wait_threads status s : threads (main_wait status s) = threads s.
Proof.
  unfold main_wait. destruct (pc s); try reflexivity.
  destruct status; reflexivity.
Qed.

Lemma main_wait_running status s :
  srv_running (main_wait status s) = srv_running s.
Proof.
  unfold main_wait. destruct (pc s); try reflexivity.
  destruct status; reflexivity.
Qed.

(* What holds of a thread when it is started and is kept by each of its
   steps holds of every thread in every reachable state. *)
Section ThreadInvariant.
Variable P : thread -> Prop.

Hypothesis P_started :
  P {| th_phase := Started;
       th_conn := {| line := EmptyString; sock := [] |} |}.
Hypothesis P_first_prompt :
  P {| th_phase := Looping; th_conn := conn_init |}.
Hypothesis P_iter :
  forall t ev,
    P t -> th_phase t = Looping ->
    P {| th_phase := Looping;
         th_conn := wk_conn (connection_iter ev
                               {| wk_running := true;
                                  wk_conn := th_conn t |}) |}.
Hypothesis P_return :
  forall t,
    P t -> th_phase t = Looping ->
    P {| th_phase := Returned;
         th_conn := {| line := line (th_conn t);
                       sock := sock (th_conn t) ++ [Close] |} |}.

Let all_threads (s : server) : Prop :=
  forall i t, workers s !! i = Some t -> P t.

Lemma all_threads_set_worker i t r s :
  all_threads s -> P t -> all_threads (set_worker i t r s).
Proof using Type.
  intros Hs Ht j t' Hj. simpl in Hj.
  destruct (decide (i = j)) as [->|Hne].
  - destruct (decide (j < length (workers s))) as [Hlt|Hge].
    + rewrite list_lookup_insert_eq in Hj by exact Hlt.
      injection Hj as <-. exact Ht.
    + rewrite list_insert_ge in Hj by lia. eapply Hs, Hj.
  - rewrite list_lookup_insert_ne in Hj by exact Hne. eapply Hs, Hj.
Qed.

Lemma all_threads_step l s : all_threads s -> all_threads (server_step l s).
Proof using All.
  intros Hs. destruct l as [ev|status|i ev]; simpl.
  - destruct (main_step_workers ev s) as [E|E]; intros j t Hj;
      rewrite E in Hj; [eapply Hs, Hj|].
    apply lookup_app_Some in Hj as [Hj|[_ Hj]]; [eapply Hs, Hj|].
    apply list_lookup_singleton_Some in Hj as [_ <-]. exact P_started.
  - intros j t Hj. rewrite main_wait_workers in Hj. eapply Hs, Hj.
  - unfold worker_step.
    destruct (workers s !! i) as [t|] eqn:Ei; [|exact Hs].
    pose proof (Hs i t Ei) as Ht.
    destruct (th_phase t) eqn:Ep; [| |exact Hs].
    + apply all_threads_set_worker; [exact Hs|exact P_first_prompt].
    + destruct (srv_running s);
        (apply all_threads_set_worker; [exact Hs|]).
      * apply P_iter; assumption.
      * apply P_return; assumption.
Qed.

Lemma reachable_threads ls i t :
  workers (server_run ls server_init) !! i = Some t -> P t.
Proof using All.
  revert i t. change (all_threads (server_run ls server_init)).
  apply server_run_ind.
  - intros i t Hi. discriminate.
  - intros l s. apply all_threads_step.
Qed.
End ThreadInvariant.

Lemma thread_ok_reachable ls i t :
  workers (server_run ls server_init) !! i = Some t -> thread_ok t.
Proof.
  apply reachable_threads.
  - reflexivity.
  - exact prompts_ok_init.
  - intros t0 ev H Hp. unfold thread_ok in *. rewrite Hp in H. simpl.
    apply (connection_iter_prompts_ok ev
             {| wk_running := true; wk_conn := th_conn t0 |}), H.
  - intros t0 H Hp. unfold thread_ok in *. rewrite Hp in H. simpl.
    apply prompts_ok_app; [exact H|reflexivity|reflexivity].
Qed.

(* A step of one thread leaves the others alone. *)
Lemma worker_step_lookup_ne i ev s j :
  i <> j -> workers (worker_step i ev s) !! j = workers s !! j.
Proof.
  intros Hne. unfold worker_step.
  destruct (workers s !! i) as [t|]; [|reflexivity].
  destruct (th_phase t); [| |reflexivity];
    [|destruct (srv_running s)]; simpl;
    apply list_lookup_insert_ne, Hne.
Qed.

(* What recv returned in a turn of the loop is what the turn adds to the
   bytes received on the socket. *)
Lemma connection_iter_received ev w :
  received (sock (wk_conn (connection_iter ev w))) =
  received (sock (wk_conn w)) ++ recv_bytes ev.
Proof.
  destruct ev as [| | |[|chr rest]].
  - simpl. rewrite received_app. reflexivity.
  - simpl. rewrite app_nil_r. reflexivity.
  - simpl. rewrite received_app. reflexivity.
  - simpl. rewrite received_app. reflexivity.
  - unfold connection_iter.
    match goal with |- context [process_bytes ?b ?w0] =>
      destruct (process_bytes_sock b w0) as (out & Hs & Hr & _)
    end.
    rewrite Hs. cbn [wk_conn sock recv_bytes]. rewrite !received_app, Hr.
    simpl. rewrite !app_nil_r. reflexivity.
Qed.

Lemma connection_loop_received evs :
  forall w,
    received (sock (wk_conn (connection_loop evs w))) =
    received (sock (wk_conn w)) ++ consumed evs w.
Proof.
  induction evs as [|ev rest IH]; intros w; simpl.
  - rewrite app_nil_r. reflexivity.
  - destruct (wk_running w); [|rewrite app_nil_r; reflexivity].
    rewrite IH, connection_iter_received, <- app_assoc. reflexivity.
Qed.

Lemma delivered_snoc i ls l :
  forall s,
    delivered i (ls ++ [l]) s =
    delivered i ls s ++ step_delivered i l (server_run ls s).
Proof.
  induction ls as [|l0 ls IH]; intros s; simpl.
  - rewrite app_nil_r. reflexivity.
  - rewrite IH, <- app_assoc. reflexivity.
Qed.

Lemma received_by_set_worker i j t r s :
  i < length (workers s) ->
  received_by (set_worker i t r s) j =
  if decide (i = j) then received (sock (th_conn t)) else received_by s j.
Proof.
  intros Hlt. unfold received_by. simpl.
  destruct (decide (i = j)) as [->|Hne].
  - rewrite list_lookup_insert_eq by exact Hlt. reflexivity.
  - rewrite list_lookup_insert_ne by exact Hne. reflexivity.
Qed.

(* One step adds to what thread i has received exactly the bytes the
   step hands to it. *)
Lemma step_received l s i :
  (forall j t, workers s !! j = Some t -> th_phase t = Started ->
               sock (th_conn t) = []) ->
  received_by (server_step l s) i = received_by s i ++ step_delivered i l s.
Proof.
  intros Hstart. destruct l as [ev|status|j ev]; simpl.
  - rewrite app_nil_r. unfold received_by.
    destruct (main_step_workers ev s) as [E|E]; rewrite E; [reflexivity|].
    destruct (workers s !! i) as [t|] eqn:Ei.
    + rewrite (lookup_app_l_Some _ _ _ _ Ei). reflexivity.
    + apply lookup_ge_None in Ei.
      destruct (decide (i = length (workers s))) as [->|Hne].
      * rewrite lookup_app_r by lia. rewrite Nat.sub_diag. reflexivity.
      * rewrite lookup_ge_None_2; [reflexivity|].
        rewrite length_app. simpl. lia.
  - rewrite app_nil_r. unfold received_by. rewrite main_wait_workers.
    reflexivity.
  - destruct (Nat.eqb_spec j i) as [->|Hne].
    + unfold worker_step, received_by at 2.
      destruct (workers s !! i) as [t|] eqn:Ei.
      * pose proof (lookup_lt_Some _ _ _ Ei) as Hlt.
        destruct (th_phase t) eqn:Ep.
        -- rewrite received_by_set_worker by exact Hlt.
           rewrite decide_True by reflexivity.
           rewrite (Hstart i t Ei Ep). simpl.
           destruct (srv_running s); reflexivity.
        -- destruct (srv_running s); simpl;
             rewrite received_by_set_worker by exact Hlt;
             rewrite decide_True by reflexivity.
           ++ apply (connection_iter_received ev
                       {| wk_running := true; wk_conn := th_conn t |}).
           ++ cbn [th_conn sock]. rewrite received_app. reflexivity.
        -- unfold received_by. rewrite Ei.
           destruct (srv_running s); simpl; rewrite app_nil_r; reflexivity.
      * unfold received_by. rewrite Ei.
        destruct (srv_running s); simpl; reflexivity.
    + simpl. rewrite app_nil_r. unfold received_by.
      rewrite worker_step_lookup_ne by exact Hne. reflexivity.
Qed.

(* What a thread has received is what the schedule has handed to it. *)
Lemma received_reachable ls i :
  received_by (server_run ls server_init) i = delivered i ls server_init.
Proof.
  induction ls as [|l ls IH] using rev_ind; [reflexivity|].
  rewrite server_run_snoc, delivered_snoc, <- IH.
  apply step_received.
  intros j t Hj Hp. pose proof (thread_ok_reachable ls j t Hj) as Ht.
  unfold thread_ok in Ht. rewrite Hp in Ht. exact Ht.
Qed.

Lemma received_thread_reachable ls i t :
  workers (server_run ls server_init) !! i = Some t ->
  received (sock (th_conn t)) = delivered i ls server_init.
Proof.
  intros H. rewrite <- received_reachable. unfold received_by.
  rewrite H. reflexivity.
Qed.

(** C3: in every state the process can reach, under every schedule of
    its threads, each worker that has run has sent the prompt ">>"
    exactly once, as its first call on the socket, and has sent the
    prompt "\r\n>>" exactly as many times as the schedule has handed it
    '\r' and '\n' bytes, the bytes it has received being the bytes handed
    to it; the same holds for connection run by itself on the results of
    its selects and recvs; a run of received bytes adds one prompt
    "\r\n>>" per terminator in it and no prompt ">>"; and a terminator
    that finds the line empty sends the prompt and nothing else, and
    leaves `running` alone. *)
Theorem prompt_per_terminator :
  (forall ls i t,
      workers (server_run ls server_init) !! i = Some t ->
      th_phase t <> Started ->
      prompts_ok (sock (th_conn t)) /\
      received (sock (th_conn t)) = delivered i ls server_init /\
      count_send prompt (sock (th_conn t)) =
      terminators (delivered i ls server_init)) /\
  (forall evs r,
      let w0 := {| wk_running := r; wk_conn := conn_init |} in
      prompts_ok (sock (wk_conn (connection evs r))) /\
      received (sock (wk_conn (connection evs r))) = consumed evs w0 /\
      count_send prompt (sock (wk_conn (connection evs r))) =
      terminators (consumed evs w0)) /\
  (forall buf w,
      count_send prompt (sock (wk_conn (process_bytes buf w))) =
      count_send prompt (sock (wk_conn w)) + terminators buf /\
      count_send ">>" (sock (wk_conn (process_bytes buf w))) =
      count_send ">>" (sock (wk_conn w))) /\
  (forall chr w,
      is_terminator chr = true ->
      line (wk_conn w) = EmptyString ->
      process_chr chr w =
      {| wk_running := wk_running w; wk_conn := send prompt (wk_conn w) |}).
Proof.
  split; [|split; [|split]].
  - intros ls i t H Hp.
    pose proof (thread_ok_reachable ls i t H) as Ht. unfold thread_ok in Ht.
    pose proof (received_thread_reachable ls i t H) as Hr.
    assert (prompts_ok (sock (th_conn t))) as Hok
        by (destruct (th_phase t); [contradiction|apply Ht|apply Ht]).
    split; [exact Hok|]. split; [exact Hr|].
    rewrite <- Hr. apply Hok.
  - intros evs r w0.
    assert (prompts_ok (sock (wk_conn (connection evs r)))) as Hok
        by apply connection_loop_prompts_ok, prompts_ok_init.
    assert (received (sock (wk_conn (connection evs r))) = consumed evs w0)
      as Hr by apply (connection_loop_received evs w0).
    split; [exact Hok|]. split; [exact Hr|].
    rewrite <- Hr. apply Hok.
  - intros buf w.
    destruct (process_bytes_sock buf w) as (out & Hs & _ & H1 & H2).
    rewrite Hs, !count_send_app, H1, H2. split; lia.
  - intros chr w Ht Hl. unfold process_chr, process_line.
    rewrite Ht, Hl. reflexivity.
Qed.

Lemma prompt_per_terminator_witness :
  let ls := accept_one ++
            [WorkerStep 0 SelectTimeout;
             WorkerStep 0 (RecvData [ascii_of_nat 100; LF; CR])] in
  exists t,
    workers (server_run ls server_init) !! 0 = Some t /\
    th_phase t <> Started /\
    delivered 0 ls server_init = [ascii_of_nat 100; LF; CR] /\
    received (sock (th_conn t)) = [ascii_of_nat 100; LF; CR] /\
    count_send prompt (sock (th_conn t)) = 2.
Proof.
  eexists. split; [reflexivity|]. split; [discriminate|].
  split; [reflexivity|].
  destruct (proj1 prompt_per_terminator
              (accept_one ++
               [WorkerStep 0 SelectTimeout;
                WorkerStep 0 (RecvData [ascii_of_nat 100; LF; CR])]) 0 _
              eq_refl) as (_ & Hr & Hc); [discriminate|].
  split; [exact Hr|exact Hc].
Defined.

(* --------------------------------------------------------------------- *)
(* The flag `running`                                                    *)
(* --------------------------------------------------------------------- *)

Create HintDb flag.

Lemma connection_command_running_false line st :
  running st = false -> running (connection_command line st) = false.
Proof.
  rewrite connection_command_dispatch_all. apply dispatch_all_running_false.
Qed.

#[local] Hint Resolve connection_command_running_false : flag.

Lemma process_line_running_false w :
  wk_running w = false -> wk_running (process_line w) = false.
Proof.
  intros H. unfold process_line.
  destruct (line (wk_conn w)); simpl; auto with flag.
Qed.

#[local] Hint Resolve process_line_running_false : flag.

Lemma process_chr_running_false chr w :
  wk_running w = false -> wk_running (process_chr chr w) = false.
Proof.
  intros H. unfold process_chr.
  destruct (is_terminator chr); [|destruct (isprint chr)]; simpl;
    auto with flag.
Qed.

#[local] Hint Resolve process_chr_running_false : flag.

Lemma process_bytes_running_false buf :
  forall w, wk_running w = false -> wk_running (process_bytes buf w) = false.
Proof.
  induction buf as [|chr rest IH]; intros w H; simpl; auto with flag.
Qed.

#[local] Hint Resolve process_bytes_running_false : flag.

Lemma connection_iter_running_false ev w :
  wk_running w = false -> wk_running (connection_iter ev w) = false.
Proof.
  intros H. destruct ev as [| | |[|chr rest]]; try reflexivity; [exact H|].
  unfold connection_iter. auto with flag.
Qed.

Lemma connection_loop_stopped evs w :
  wk_running w = false -> connection_loop evs w = w.
Proof. intros H. destruct evs; simpl; [|rewrite H]; reflexivity. Qed.

Lemma main_step_running ev s : srv_running (main_step ev s) = srv_running s.
Proof.
  unfold main_step, reap_iter.
  destruct (pc s) as [| | |i|k|].
  - destruct (srv_running s) eqn:E; simpl; auto.
  - destruct ev; reflexivity.
  - reflexivity.
  - destruct (threads s !! i) as [h|]; [destruct (future_ready s h)|];
      reflexivity.
  - destruct (threads s !! k) as [h|]; [destruct (future_ready s h)|];
      reflexivity.
  - reflexivity.
Qed.

Lemma worker_step_running_false i ev s :
  srv_running s = false -> srv_running (worker_step i ev s) = false.
Proof.
  intros H. unfold worker_step.
  destruct (workers s !! i) as [t|]; [|exact H].
  destruct (th_phase t); [exact H| |exact H].
  rewrite H. reflexivity.
Qed.

Lemma server_step_running_false l s :
  srv_running s = false -> srv_running (server_step l s) = false.
Proof.
  intros H. destruct l as [ev|status|i ev]; simpl.
  - rewrite main_step_running. exact H.
  - rewrite main_wait_running. exact H.
  - apply worker_step_running_false, H.
Qed.

Lemma server_run_running_false ls :
  forall s, srv_running s = false -> srv_running (server_run ls s) = false.
Proof.
  induction ls as [|l ls IH]; intros s H; [exact H|].
  simpl. apply IH, server_step_running_false, H.
Qed.

(** C8: `running` starts true, which is the not-shut-down state of the
    flag; once it is false no step of main or of a worker, under any
    schedule, no line run through connection_command and no turn of the
    loop of connection makes it true again; and the EX action applied a
    second time changes nothing. *)
Theorem shutdown_flag_monotone :
  srv_running server_init = true /\
  (forall l s, srv_running s = false -> srv_running (server_step l s) = false) /\
  (forall ls s, srv_running s = false -> srv_running (server_run ls s) = false) /\
  (forall st, ex (ex st) = ex st) /\
  (forall line st, running st = false ->
                   running (connection_command line st) = false) /\
  (forall ev w, wk_running w = false ->
                wk_running (connection_iter ev w) = false).
Proof.
  split; [reflexivity|].
  split; [exact server_step_running_false|].
  split; [exact server_run_running_false|].
  split; [reflexivity|].
  split; [exact connection_command_running_false|].
  exact connection_iter_running_false.
Qed.

Lemma shutdown_flag_monotone_witness :
  let s := server_run (accept_one ++
                       [WorkerStep 0 SelectTimeout;
                        WorkerStep 0 (RecvData [])]) server_init in
  srv_running s = false /\
  srv_running
    (server_run (accept_one ++ [WorkerStep 0 SelectTimeout;
                 WorkerStep 0 (RecvData [ascii_of_nat 100; LF])]) s) = false.
Proof.
  split; [reflexivity|].
  apply (proj1 (proj2 (proj2 shutdown_flag_monotone))). reflexivity.
Defined.

(* --------------------------------------------------------------------- *)
(* A line that holds EX                                                  *)
(* --------------------------------------------------------------------- *)

Lemma process_chr_terminator_line chr w c rest :
  is_terminator chr = true ->
  line (wk_conn w) = String c rest ->
  let st := dispatch_all (strtok_all (c_str (String c rest)))
              {| running := wk_running w; os := EmptyString |} in
  process_chr chr w =
  {| wk_running := running st;
     wk_conn :=
       {| line := EmptyString;
          sock := sock (wk_conn w) ++
                  match os st with
                  | EmptyString => []
                  | String _ _ => [Send crlf; Send (os st)]
                  end ++ [Send prompt] |} |}.
Proof.
  intros Ht Hl st. unfold process_chr, process_line. rewrite Ht, Hl.
  rewrite connection_command_dispatch_all. fold st.
  destruct (os st); unfold send; simpl; [reflexivity|].
  rewrite <- !app_assoc. reflexivity.
Qed.

(** C10: a token after EX is dispatched like any other, on the state EX
    leaves; and when a terminator arrives on a line one of whose tokens
    is EX in any case, the whole line is dispatched, the response of all
    its tokens (when there is one) and then the prompt are sent,
    `running` is false afterwards, and, whatever bytes of the same recv
    are still processed, the loop of connection then makes no further
    turn.  The line "ex dir" sends "Directory..." and the prompt. *)
Theorem ex_line_completes :
  (forall toks1 token toks2 st,
      toupper token = "EX" ->
      dispatch_all (toks1 ++ token :: toks2) st =
      dispatch_all toks2 (ex (dispatch_all toks1 st))) /\
  (forall w chr,
      is_terminator chr = true ->
      In "EX" (map toupper (strtok_all (c_str (line (wk_conn w))))) ->
      let st := dispatch_all (strtok_all (c_str (line (wk_conn w))))
                  {| running := wk_running w; os := EmptyString |} in
      let w' := process_chr chr w in
      wk_running w' = false /\
      sock (wk_conn w') =
      sock (wk_conn w) ++
      match os st with
      | EmptyString => []
      | String _ _ => [Send crlf; Send (os st)]
      end ++ [Send prompt] /\
      forall rest evs,
        connection_loop evs (process_bytes rest w') = process_bytes rest w') /\
  sock (wk_conn (connection
                   [RecvData (list_ascii_of_string "ex dir" ++ [LF]);
                    RecvData (list_ascii_of_string "dir" ++ [LF])] true)) =
  [Send ">>"; Recv (list_ascii_of_string "ex dir" ++ [LF]);
   Send "e"; Send "x"; Send " "; Send "d"; Send "i"; Send "r";
   Send crlf; Send ("Directory..." +:+ endl); Send prompt].
Proof.
  split; [|split; [|reflexivity]].
  - intros toks1 token toks2 st E.
    rewrite dispatch_all_app, dispatch_all_cons.
    unfold dispatch_token. rewrite E, tokens_EX. reflexivity.
  - intros w chr Ht Hin st w'.
    destruct (line (wk_conn w)) as [|c rest] eqn:El; [destruct Hin|].
    assert (wk_running w' = false) as Hr.
    { unfold w'. rewrite (process_chr_terminator_line chr w c rest Ht El).
      simpl. apply dispatch_all_EX, Hin. }
    split; [exact Hr|]. split.
    + unfold w'. rewrite (process_chr_terminator_line chr w c rest Ht El).
      reflexivity.
    + intros rest' evs. apply connection_loop_stopped.
      apply process_bytes_running_false, Hr.
Qed.

Lemma ex_line_completes_witness :
  let w := {| wk_running := true;
              wk_conn := {| line := "Ex dir"; sock := [Send ">>"] |} |} in
  is_terminator LF = true /\
  In "EX" (map toupper (strtok_all (c_str (line (wk_conn w))))) /\
  wk_running (process_chr LF w) = false /\
  sock (wk_conn (process_chr LF w)) =
  [Send ">>"; Send crlf; Send ("Directory..." +:+ endl); Send prompt].
Proof.
  split; [reflexivity|]. split; [left; reflexivity|].
  pose proof (proj1 (proj2 ex_line_completes)
                {| wk_running := true;
                   wk_conn := {| line := "Ex dir"; sock := [Send ">>"] |} |}
                LF eq_refl (or_introl eq_refl)) as (H1 & H2 & _).
  split; [exact H1|exact H2].
Defined.

(* --------------------------------------------------------------------- *)
(* The line buffer                                                       *)
(* --------------------------------------------------------------------- *)

Lemma process_chr_line_printable chr w :
  all_chr isprint (line (wk_conn w)) = true ->
  all_chr isprint (line (wk_conn (process_chr chr w))) = true.
Proof.
  intros H. unfold process_chr, process_line.
  destruct (is_terminator chr).
  - destruct (line (wk_conn w)) eqn:El; simpl; [|reflexivity].
    rewrite El. reflexivity.
  - destruct (isprint chr) eqn:Ep; simpl; [|exact H].
    rewrite all_chr_app, H. simpl. rewrite Ep. reflexivity.
Qed.

(* connection_command is only ever handed printable characters. *)
Lemma process_bytes_line_printable buf :
  forall w, all_chr isprint (line (wk_conn w)) = true ->
            all_chr isprint (line (wk_conn (process_bytes buf w))) = true.
Proof.
  induction buf as [|chr rest IH]; intros w H; [exact H|].
  simpl. apply IH, process_chr_line_printable, H.
Qed.

Lemma connection_iter_line_printable ev w :
  all_chr isprint (line (wk_conn w)) = true ->
  all_chr isprint (line (wk_conn (connection_iter ev w))) = true.
Proof.
  intros H. destruct ev as [| | |[|chr buf]]; try exact H.
  unfold connection_iter. apply process_bytes_line_printable. exact H.
Qed.

(* In every reachable state the line buffer of every thread is printable. *)
Lemma line_printable_reachable ls i t :
  workers (server_run ls server_init) !! i = Some t ->
  all_chr isprint (line (th_conn t)) = true.
Proof.
  apply (reachable_threads
           (fun t => all_chr isprint (line (th_conn t)) = true)).
  - reflexivity.
  - reflexivity.
  - intros t0 ev H _.
    apply (connection_iter_line_printable ev
             {| wk_running := true; wk_conn := th_conn t0 |}), H.
  - intros t0 H _. exact H.
Qed.



(** C5: on a line of printable characters connection_command runs the
    white-space separated words of the line, a run of white space
    counting as one delimiter and white space at either end giving no
    empty token; the line buffer of every worker in every reachable
    state is such a line; the table is looked up with the uppercased
    token; and the line " dir  DIR " has the tokens "dir" and "DIR",
    runs the DIR action twice and nothing else, and leaves the
    placeholder line twice in the response stream. *)
Theorem tokenise_whitespace_case_insensitive :
  (forall line st,
      all_chr isprint line = true ->
      connection_command line st = dispatch_all (split_whitespace line) st) /\
  (forall ls i t st,
      workers (server_run ls server_init) !! i = Some t ->
      connection_command (line (th_conn t)) st =
      dispatch_all (split_whitespace (line (th_conn t))) st) /\
  (forall token st, dispatch_token token st = dispatch_token (toupper token) st) /\
  split_whitespace " dir  DIR " = ["dir"; "DIR"] /\
  strtok_all (c_str " dir  DIR ") = ["dir"; "DIR"] /\
  (forall st, connection_command " dir  DIR " st = dir (dir st)) /\
  os (connection_command " dir  DIR " {| running := true; os := "" |}) =
  "Directory..." +:+ endl +:+ "Directory..." +:+ endl.
Proof.
  assert (forall line st,
             all_chr isprint line = true ->
             connection_command line st =
             dispatch_all (split_whitespace line) st) as Hsplit.
  { intros line st H.
    rewrite connection_command_dispatch_all, strtok_all_split_whitespace
      by exact H.
    reflexivity. }
  split; [exact Hsplit|].
  split.
  { intros ls i t st H. apply Hsplit.
    eapply line_printable_reachable, H. }
  split.
  { intros token st. unfold dispatch_token.
    replace (toupper (toupper token)) with (toupper token); [reflexivity|].
    induction token as [|chr rest IH]; [reflexivity|].
    simpl. rewrite <- IH. f_equal. by_char chr. }
  split; [reflexivity|].
  split; [reflexivity|].
  split; [|reflexivity].
  intros st. rewrite connection_command_dispatch_all. reflexivity.
Qed.

Lemma tokenise_whitespace_case_insensitive_witness :
  all_chr isprint " dir  DIR " = true /\
  os (connection_command " dir  DIR " {| running := true; os := "" |}) =
  os (dispatch_all ["dir"; "DIR"] {| running := true; os := "" |}).
Proof.
  split; [reflexivity|].
  rewrite (proj1 tokenise_whitespace_case_insensitive " dir  DIR "
             {| running := true; os := "" |} eq_refl).
  reflexivity.
Defined.

(* --------------------------------------------------------------------- *)
(* A failing connection                                                  *)
(* --------------------------------------------------------------------- *)

Lemma connection_iter_io_failure ev w :
  io_failure ev = true ->
  exists message,
    connection_iter ev w =
    {| wk_running := false; wk_conn := write_log message (wk_conn w) |}.
Proof.
  destruct ev as [| | |[|chr rest]]; try discriminate; intros _;
    eexists; reflexivity.
Qed.

(** C1: what the code does when select or recv fails, or recv returns
    no bytes, on the socket of a worker that is in its loop while
    `running` is true: the worker logs a line and sets the process-wide
    `running` to false; from then on every other worker in its loop
    returns and closes its socket at its next test of `running`, and
    main, when it is at the head of its loop, leaves the accept loop at
    that test of `running` and accepts nothing more. *)
Theorem io_failure_stops_server :
  forall s i t ev,
    workers s !! i = Some t ->
    th_phase t = Looping ->
    srv_running s = true ->
    io_failure ev = true ->
    let s' := server_step (WorkerStep i ev) s in
    srv_running s' = false /\
    (exists message,
        workers s' !! i =
        Some {| th_phase := Looping;
                th_conn := write_log message (th_conn t) |}) /\
    (forall j tj ev',
        j <> i -> workers s !! j = Some tj -> th_phase tj = Looping ->
        workers (server_step (WorkerStep j ev') s') !! j =
        Some {| th_phase := Returned;
                th_conn := {| line := line (th_conn tj);
                              sock := sock (th_conn tj) ++ [Close] |} |}) /\
    (pc s = AtSelect ->
     forall ev', server_step (MainStep ev') s' = set_pc (Joining 0) s').
Proof.
  intros s i t ev Hi Hp Hr Hev s'.
  pose proof (lookup_lt_Some _ _ _ Hi) as Hlt.
  destruct (connection_iter_io_failure ev
              {| wk_running := true; wk_conn := th_conn t |} Hev)
    as [message Hm].
  assert (s' = set_worker i {| th_phase := Looping;
                               th_conn := write_log message (th_conn t) |}
                 false s) as Es'.
  { unfold s'. simpl. unfold worker_step. rewrite Hi, Hp, Hr, Hm.
    reflexivity. }
  rewrite Es'. split; [reflexivity|]. split; [|split].
  - exists message. simpl. apply list_lookup_insert_eq, Hlt.
  - intros j tj ev' Hne Hj Hpj.
    pose proof (lookup_lt_Some _ _ _ Hj) as Hjlt.
    simpl. unfold worker_step. simpl.
    rewrite list_lookup_insert_ne by congruence.
    rewrite Hj, Hpj. simpl.
    apply list_lookup_insert_eq. rewrite length_insert. exact Hjlt.
  - intros Hpc ev'. simpl. unfold main_step. simpl. rewrite Hpc.
    reflexivity.
Qed.

Lemma io_failure_stops_server_witness :
  let s := server_run (accept_one ++ accept_one ++
                       [WorkerStep 0 SelectTimeout;
                        WorkerStep 1 SelectTimeout]) server_init in
  let s' := server_step (WorkerStep 0 (RecvData [])) s in
  srv_running s = true /\
  srv_running s' = false /\
  workers (server_step (WorkerStep 1 SelectTimeout) s') !! 1 =
  Some {| th_phase := Returned;
          th_conn := {| line := EmptyString; sock := [Send ">>"; Close] |} |} /\
  pc (server_step (MainStep Accepted) s') = Joining 0.
Proof.
  pose proof (io_failure_stops_server
                (server_run (accept_one ++ accept_one ++
                             [WorkerStep 0 SelectTimeout;
                              WorkerStep 1 SelectTimeout]) server_init)
                0 {| th_phase := Looping; th_conn := conn_init |}
                (RecvData []) eq_refl eq_refl eq_refl eq_refl)
    as (H1 & _ & H3 & H4).
  split; [reflexivity|]. split; [exact H1|]. split.
  - apply (H3 1 {| th_phase := Looping; th_conn := conn_init |});
      [discriminate|reflexivity|reflexivity].
  - rewrite (H4 eq_refl). reflexivity.
Defined.

(* --------------------------------------------------------------------- *)
(* The clean-up loop of main                                             *)
(* --------------------------------------------------------------------- *)

Lemma set_pc_same s : set_pc (pc s) s = s.
Proof. destruct s. reflexivity. Qed.

Lemma reap_iter_not_ready i h s :
  pc s = InReap i ->
  threads s !! i = Some h ->
  future_ready s h = false ->
  forall ev, main_step ev s = s.
Proof.
  intros Hpc Hi Hr ev. unfold main_step, reap_iter.
  rewrite Hpc, Hi, Hr, <- Hpc. apply set_pc_same.
Qed.

(** C2: what the clean-up loop of main does when the future its
    iterator addresses is not ready: it tests the same future again,
    so however often main is scheduled, it stays in the loop, with the
    vector unchanged, and does not return to select; and from the
    start of the vector the loop returns to select only once the
    vector is empty. *)
Theorem reap_waits_for_running_worker :
  (forall s i h evs,
      pc s = InReap i ->
      threads s !! i = Some h ->
      future_ready s h = false ->
      server_run (map MainStep evs) s = s) /\
  (forall s ev,
      pc s = InReap 0 ->
      pc (server_step (MainStep ev) s) = AtSelect ->
      threads s = []).
Proof.
  split.
  - intros s i h evs Hpc Hi Hr.
    induction evs as [|ev evs IH]; [reflexivity|].
    simpl. rewrite (reap_iter_not_ready i h s Hpc Hi Hr). exact IH.
  - intros s ev Hpc. simpl. unfold main_step, reap_iter. rewrite Hpc.
    destruct (threads s) as [|h rest]; [reflexivity|].
    simpl. destruct (future_ready s h); discriminate.
Qed.

Lemma reap_waits_for_running_worker_witness :
  let s := server_run (accept_one ++ [WorkerStep 0 SelectTimeout] ++
                       select_timeout) server_init in
  pc s = InReap 0 /\
  threads s !! 0 = Some 0 /\
  future_ready s 0 = false /\
  server_run (map MainStep [Accepted; ListenTimeout; Accepted]) s = s.
Proof.
  split; [reflexivity|]. split; [reflexivity|]. split; [reflexivity|].
  apply (proj1 reap_waits_for_running_worker _ 0 0); reflexivity.
Defined.

(* --------------------------------------------------------------------- *)
(* What reaches the client, and the close of the socket                  *)
(* --------------------------------------------------------------------- *)

Lemma wire_ok_first_prompt : wire_ok (Send ">>").
Proof. simpl. auto. Qed.

Lemma wire_ok_prompt : wire_ok (Send prompt).
Proof. simpl. auto. Qed.

Lemma wire_ok_crlf : wire_ok (Send crlf).
Proof. simpl. auto. Qed.

Lemma wire_ok_echo chr : isprint chr = true -> wire_ok (echo chr).
Proof. intros H. simpl. eauto 10. Qed.

Lemma wire_ok_response k : wire_ok (Send (dir_output (S k))).
Proof. simpl. eauto 10. Qed.

Lemma process_line_wire w :
  exists out,
    sock (wk_conn (process_line w)) = sock (wk_conn w) ++ out /\
    Forall wire_ok out.
Proof.
  unfold process_line. destruct (line (wk_conn w)) as [|chr rest] eqn:El.
  - exists []. rewrite app_nil_r. auto.
  - destruct (response_shape (String chr rest) (wk_running w)) as [k Hk].
    rewrite Hk. destruct k as [|k].
    + exists []. simpl. rewrite app_nil_r. auto.
    + exists [Send crlf; Send (dir_output (S k))].
      split; [simpl; rewrite <- app_assoc; reflexivity|].
      apply Forall_cons_2; [exact wire_ok_crlf|].
      apply Forall_cons_2; [apply wire_ok_response|constructor].
Qed.

Lemma process_chr_wire chr w :
  exists out,
    sock (wk_conn (process_chr chr w)) = sock (wk_conn w) ++ out /\
    Forall wire_ok out.
Proof.
  unfold process_chr. destruct (is_terminator chr).
  - destruct (process_line_wire w) as (out & Hs & Ho).
    exists (out ++ [Send prompt]). simpl. rewrite Hs, <- app_assoc.
    split; [reflexivity|]. apply Forall_app. split; [exact Ho|].
    apply Forall_cons_2; [exact wire_ok_prompt|constructor].
  - destruct (isprint chr) eqn:Ep; simpl.
    + exists [echo chr]. split; [reflexivity|].
      apply Forall_cons_2; [apply wire_ok_echo, Ep|constructor].
    + exists []. rewrite app_nil_r. auto.
Qed.

Lemma process_bytes_wire buf :
  forall w, exists out,
    sock (wk_conn (process_bytes buf w)) = sock (wk_conn w) ++ out /\
    Forall wire_ok out.
Proof.
  induction buf as [|chr rest IH]; intros w; simpl.
  - exists []. rewrite app_nil_r. auto.
  - destruct (IH (process_chr chr w)) as (out2 & Hs2 & Ho2).
    destruct (process_chr_wire chr w) as (out1 & Hs1 & Ho1).
    exists (out1 ++ out2). rewrite Hs2, Hs1, <- app_assoc.
    split; [reflexivity|]. apply Forall_app. auto.
Qed.

Lemma connection_iter_wire ev w :
  exists out,
    sock (wk_conn (connection_iter ev w)) = sock (wk_conn w) ++ out /\
    Forall wire_ok out.
Proof.
  assert (forall message, Forall wire_ok [Log message]) as Hlog
      by (intros message; apply Forall_cons_2; [exact I|constructor]).
  destruct ev as [| | |[|chr rest]].
  - eexists [Log _]. split; [reflexivity|apply Hlog].
  - exists []. simpl. rewrite app_nil_r. auto.
  - eexists [Log _]. split; [reflexivity|apply Hlog].
  - eexists [Log _]. split; [reflexivity|apply Hlog].
  - unfold connection_iter.
    match goal with |- context [process_bytes ?b ?w0] =>
      destruct (process_bytes_wire b w0) as (out & Hs & Ho)
    end.
    rewrite Hs. exists ([Recv (chr :: rest)] ++ out).
    cbn [wk_conn sock]. rewrite <- app_assoc. split; [reflexivity|].
    apply Forall_app. split; [|exact Ho].
    apply Forall_cons_2; [exact I|constructor].
Qed.

Lemma thread_trace_ok_reachable ls i t :
  workers (server_run ls server_init) !! i = Some t -> thread_trace_ok t.
Proof.
  apply reachable_threads.
  - reflexivity.
  - unfold thread_trace_ok. simpl.
    apply Forall_cons_2; [exact wire_ok_first_prompt|constructor].
  - intros t0 ev H Hp. unfold thread_trace_ok in *. rewrite Hp in H. simpl.
    destruct (connection_iter_wire ev
                {| wk_running := true; wk_conn := th_conn t0 |})
      as (out & -> & Ho).
    apply Forall_app. auto.
  - intros t0 H Hp. unfold thread_trace_ok in *. rewrite Hp in H. simpl.
    eauto.
Qed.

Lemma count_close_wire trace : Forall wire_ok trace -> count_close trace = 0.
Proof.
  induction 1 as [|e trace He _ IH]; [reflexivity|].
  unfold count_close in *. simpl.
  destruct e; simpl; [exact IH|exact IH|exact IH|destruct He].
Qed.

Lemma count_close_app t1 t2 :
  count_close (t1 ++ t2) = count_close t1 + count_close t2.
Proof. unfold count_close. rewrite List.filter_app, length_app. reflexivity. Qed.

(** X1: in every reachable state, under every schedule, everything a
    worker has sent on its socket is the first prompt, the prompt after
    a line, a line break, one printable character, or copies of the
    line the DIR action writes; the text of its log lines is never
    sent. *)
Theorem client_sees_only_protocol :
  forall ls i t payload,
    workers (server_run ls server_init) !! i = Some t ->
    In (Send payload) (sock (th_conn t)) ->
    payload = ">>" \/ payload = prompt \/ payload = crlf \/
    (exists chr, isprint chr = true /\ payload = String chr EmptyString) \/
    (exists k, payload = dir_output (S k)).
Proof.
  intros ls i t payload Hi Hin.
  pose proof (thread_trace_ok_reachable ls i t Hi) as Ht.
  unfold thread_trace_ok in Ht.
  assert (exists trace, Forall wire_ok trace /\ In (Send payload) trace)
    as (trace & Hw & Hin').
  { destruct (th_phase t).
    - rewrite Ht in Hin. destruct Hin.
    - eauto.
    - destruct Ht as (pre & E & Hpre). exists pre. split; [exact Hpre|].
      rewrite E in Hin. apply in_app_or in Hin as [H|[H|[]]];
        [exact H|discriminate]. }
  rewrite List.Forall_forall in Hw. exact (Hw _ Hin').
Qed.

Lemma client_sees_only_protocol_witness :
  let ls := (accept_one ++ [WorkerStep 0 SelectTimeout;
             WorkerStep 0 (RecvData [ascii_of_nat 100; LF])]) in
  exists t,
    workers (server_run ls server_init) !! 0 = Some t /\
    In (Send "d") (sock (th_conn t)) /\
    exists chr, isprint chr = true /\ "d" = String chr EmptyString.
Proof.
  eexists. split; [reflexivity|].
  assert (In (Send "d")
            [Send ">>"; Recv [ascii_of_nat 100; LF]; Send "d"; Send prompt])
    as Hin by (right; right; left; reflexivity).
  split; [exact Hin|].
  destruct (client_sees_only_protocol
              (accept_one ++ [WorkerStep 0 SelectTimeout;
               WorkerStep 0 (RecvData [ascii_of_nat 100; LF])])
              0 _ "d" eq_refl Hin)
    as [H|[H|[H|[H|[k H]]]]]; try discriminate H.
  exact H.
Defined.

Lemma returned_closes_last t :
  thread_trace_ok t -> th_phase t = Returned ->
  last (sock (th_conn t)) = Some Close.
Proof.
  unfold thread_trace_ok. intros H Hp. rewrite Hp in H.
  destruct H as (pre & -> & _). apply last_snoc.
Qed.

(** X2: in every reachable state a worker's socket has been closed at
    most once: once, as the last call of the thread, when the thread
    has returned from connection, and not at all before. *)
Theorem socket_closed_once_on_return :
  forall ls i t,
    workers (server_run ls server_init) !! i = Some t ->
    count_close (sock (th_conn t)) =
    match th_phase t with Returned => 1 | _ => 0 end /\
    (th_phase t = Returned -> last (sock (th_conn t)) = Some Close).
Proof.
  intros ls i t Hi.
  pose proof (thread_trace_ok_reachable ls i t Hi) as Ht.
  unfold thread_trace_ok in Ht. destruct (th_phase t).
  - rewrite Ht. split; [reflexivity|discriminate].
  - split; [apply count_close_wire, Ht|discriminate].
  - destruct Ht as (pre & -> & Hpre). split.
    + rewrite count_close_app, (count_close_wire _ Hpre). reflexivity.
    + intros _. apply last_snoc.
Qed.

Lemma socket_closed_once_on_return_witness :
  let ls := (accept_one ++ [WorkerStep 0 SelectTimeout;
             WorkerStep 0 (RecvData []); WorkerStep 0 SelectTimeout]) in
  exists t,
    workers (server_run ls server_init) !! 0 = Some t /\
    th_phase t = Returned /\
    count_close (sock (th_conn t)) = 1.
Proof.
  eexists. split; [reflexivity|]. split; [reflexivity|].
  apply (socket_closed_once_on_return
           (accept_one ++ [WorkerStep 0 SelectTimeout;
            WorkerStep 0 (RecvData []); WorkerStep 0 SelectTimeout]) 0).
  reflexivity.
Defined.

(* --------------------------------------------------------------------- *)
(* The end of main                                                       *)
(* --------------------------------------------------------------------- *)

(* A step of a thread either changes nothing or replaces a thread that
   has not returned. *)
Lemma worker_step_cases i ev s :
  worker_step i ev s = s \/
  exists t t' r,
    workers s !! i = Some t /\ th_phase t <> Returned /\
    worker_step i ev s = set_worker i t' r s.
Proof.
  unfold worker_step. destruct (workers s !! i) as [t|]; [|auto].
  destruct (th_phase t) eqn:Ep; [| |auto]; right.
  - eexists t, _, _. rewrite Ep. repeat split. discriminate.
  - destruct (srv_running s); eexists t, _, _; rewrite Ep;
      (repeat split; discriminate).
Qed.

Lemma worker_step_threads i ev s : threads (worker_step i ev s) = threads s.
Proof.
  destruct (worker_step_cases i ev s) as [->|(t & t' & r & _ & _ & ->)];
    reflexivity.
Qed.

Lemma worker_step_pc i ev s : pc (worker_step i ev s) = pc s.
Proof.
  destruct (worker_step_cases i ev s) as [->|(t & t' & r & _ & _ & ->)];
    reflexivity.
Qed.

Lemma worker_step_length i ev s :
  length (workers (worker_step i ev s)) = length (workers s).
Proof.
  destruct (worker_step_cases i ev s) as [->|(t & t' & r & _ & _ & ->)];
    [reflexivity|]. simpl. apply length_insert.
Qed.

(* A future that is ready stays ready. *)
Lemma worker_step_future_ready i ev s h :
  future_ready s h = true -> future_ready (worker_step i ev s) h = true.
Proof.
  intros H.
  destruct (worker_step_cases i ev s) as [->|(t & t' & r & Hi & Hp & ->)];
    [exact H|].
  unfold future_ready in *. simpl.
  destruct (decide (i = h)) as [->|Hne].
  - rewrite Hi in H. destruct (th_phase t); try discriminate.
    contradiction.
  - rewrite list_lookup_insert_ne by exact Hne. exact H.
Qed.

Lemma future_ready_Returned s h t :
  workers s !! h = Some t -> future_ready s h = true -> th_phase t = Returned.
Proof.
  unfold future_ready. intros -> H. destruct (th_phase t);
    [discriminate|discriminate|reflexivity].
Qed.

Lemma elem_of_delete_or {A} (l : list A) i x y :
  l !! i = Some y -> x ∈ l -> x = y \/ x ∈ delete i l.
Proof.
  revert i. induction l as [|z l IH]; intros i Hi Hx; [discriminate|].
  destruct i as [|i]; simpl in *.
  - injection Hi as ->. apply elem_of_cons in Hx. exact Hx.
  - apply elem_of_cons in Hx as [->|Hx].
    + right. apply elem_of_cons. auto.
    + destruct (IH i Hi Hx) as [->|H]; [auto|].
      right. apply elem_of_cons. auto.
Qed.

Lemma elem_of_delete {A} (l : list A) i x : x ∈ delete i l -> x ∈ l.
Proof.
  revert i. induction l as [|z l IH]; intros i Hx; [destruct i; exact Hx|].
  destruct i as [|i]; simpl in *.
  - apply elem_of_cons. auto.
  - apply elem_of_cons in Hx as [->|Hx]; apply elem_of_cons; eauto.
Qed.

Lemma join_ok_init : join_ok server_init.
Proof. split; [intros j t H; discriminate|exact I]. Qed.

Lemma join_ok_main_step ev s : join_ok s -> join_ok (main_step ev s).
Proof.
  intros [Ha Hb]. unfold main_step, reap_iter.
  destruct (pc s) as [| | |i|k|] eqn:Epc.
  - destruct (srv_running s); split; simpl; try exact Ha; try exact I.
    intros j h Hj. lia.
  - destruct ev; split; simpl; try exact Ha; try exact I.
    intros j t Hj.
    apply lookup_app_Some in Hj as [Hj|[Hlen Hj]].
    + destruct (Ha j t Hj) as [H|H]; [left|right; exact H].
      apply elem_of_app. auto.
    + left. apply elem_of_app. right.
      apply list_lookup_singleton_Some in Hj as [Hj _].
      replace j with (length (workers s)) by lia.
      apply list_elem_of_singleton. reflexivity.
  - split; [exact Ha|]. rewrite Epc. exact I.
  - destruct (threads s !! i) as [h|] eqn:Ei.
    + destruct (future_ready s h) eqn:Er; split; simpl;
        try exact Ha; try exact I.
      intros j t Hj. destruct (Ha j t Hj) as [H|H]; [|auto].
      destruct (elem_of_delete_or _ _ _ _ Ei H) as [->|H']; [|auto].
      right. eapply future_ready_Returned; eassumption.
    + split; simpl; [exact Ha|exact I].
  - destruct (threads s !! k) as [h|] eqn:Ek.
    + destruct (future_ready s h) eqn:Er.
      * split; simpl; [exact Ha|].
        intros j h' Hj Hh. destruct (decide (j = k)) as [->|Hne].
        -- rewrite Ek in Hh. injection Hh as <-. exact Er.
        -- apply (Hb j h'); [lia|exact Hh].
      * split; [exact Ha|]. rewrite Epc. exact Hb.
    + split; simpl; [exact Ha|].
      intros h Hh. apply list_elem_of_lookup in Hh as [j Hj].
      apply (Hb j h); [|exact Hj].
      apply lookup_lt_Some in Hj. apply lookup_ge_None in Ek. lia.
  - split; [exact Ha|]. rewrite Epc. exact Hb.
Qed.

Lemma join_ok_worker_step i ev s : join_ok s -> join_ok (worker_step i ev s).
Proof.
  intros [Ha Hb]. split.
  - intros j t Hj. rewrite worker_step_threads.
    destruct (decide (i = j)) as [->|Hne].
    + destruct (worker_step_cases j ev s)
        as [E|(t0 & t' & r & Hj0 & Hp & E)]; rewrite E in Hj.
      * exact (Ha j t Hj).
      * destruct (Ha j t0 Hj0) as [H|H]; [left; exact H|contradiction].
    + rewrite worker_step_lookup_ne in Hj by exact Hne. exact (Ha j t Hj).
  - rewrite worker_step_pc, worker_step_threads.
    destruct (pc s); try exact I.
    + intros j h Hj Hh. apply worker_step_future_ready. eapply Hb; eassumption.
    + intros h Hh. apply worker_step_future_ready, Hb, Hh.
Qed.

Lemma join_ok_main_wait status s : join_ok s -> join_ok (main_wait status s).
Proof.
  intros [Ha Hb]. unfold main_wait.
  destruct (pc s) eqn:Epc; try (split; [exact Ha|rewrite Epc; exact Hb]).
  destruct status; split; simpl; try exact Ha; try exact I.
  rewrite Epc. exact I.
Qed.

Lemma join_ok_reachable ls : join_ok (server_run ls server_init).
Proof.
  apply server_run_ind; [exact join_ok_init|].
  intros [ev|status|i ev] s H; simpl.
  - apply join_ok_main_step, H.
  - apply join_ok_main_wait, H.
  - apply join_ok_worker_step, H.
Qed.

(** X4: under every schedule, main gets past its final wait, to the
    close of the listening socket, only when every thread it ever
    started has returned from connection and closed its own socket. *)
Theorem main_exits_after_all_workers :
  forall ls i t,
    pc (server_run ls server_init) = Exited ->
    workers (server_run ls server_init) !! i = Some t ->
    th_phase t = Returned /\ last (sock (th_conn t)) = Some Close.
Proof.
  intros ls i t Hpc Hi.
  assert (th_phase t = Returned) as Hp.
  { destruct (join_ok_reachable ls) as [Ha Hb]. rewrite Hpc in Hb.
    destruct (Ha i t Hi) as [H|H]; [|exact H].
    eapply future_ready_Returned; [exact Hi|]. apply Hb, H. }
  split; [exact Hp|].
  apply returned_closes_last; [|exact Hp].
  eapply thread_trace_ok_reachable, Hi.
Qed.

Lemma main_exits_after_all_workers_witness :
  let ls := accept_one ++
            [WorkerStep 0 SelectTimeout;
             WorkerStep 0 (RecvData []); WorkerStep 0 SelectTimeout;
             MainStep ListenTimeout; MainStep ListenTimeout;
             MainStep ListenTimeout] in
  pc (server_run ls server_init) = Exited /\
  exists t,
    workers (server_run ls server_init) !! 0 = Some t /\
    th_phase t = Returned.
Proof.
  split; [reflexivity|]. eexists. split; [reflexivity|].
  apply (main_exits_after_all_workers
           (accept_one ++ [WorkerStep 0 SelectTimeout;
            WorkerStep 0 (RecvData []); WorkerStep 0 SelectTimeout;
            MainStep ListenTimeout; MainStep ListenTimeout;
            MainStep ListenTimeout]) 0); reflexivity.
Defined.

(* --------------------------------------------------------------------- *)
(* Shutdown ends the process                                             *)
(* --------------------------------------------------------------------- *)

(* Every future in the vector of main names a thread that was started. *)
Lemma handles_valid_reachable ls :
  forall h, h ∈ threads (server_run ls server_init) ->
            h < length (workers (server_run ls server_init)).
Proof.
  apply (server_run_ind
           (fun s => forall h, h ∈ threads s -> h < length (workers s))).
  - intros h H. apply elem_of_nil in H. destruct H.
  - intros [ev|status|i ev] s IH h; simpl.
    + unfold main_step, reap_iter. destruct (pc s) as [| | |j|k|].
      * destruct (srv_running s); apply IH.
      * destruct ev; simpl; try apply IH.
        intros H. rewrite length_app. simpl.
        apply elem_of_app in H as [H|H]; [apply IH in H; lia|].
        apply list_elem_of_singleton in H. lia.
      * apply IH.
      * destruct (threads s !! j) as [h'|]; [|apply IH].
        destruct (future_ready s h'); simpl; [|apply IH].
        intros H. apply IH. eapply elem_of_delete, H.
      * destruct (threads s !! k) as [h'|]; [|apply IH].
        destruct (future_ready s h'); apply IH.
      * apply IH.
    + rewrite main_wait_threads, main_wait_workers. apply IH.
    + rewrite worker_step_threads, worker_step_length. apply IH.
Qed.

(* With `running` false, two steps take a thread out of connection. *)
Lemma worker_two_steps_returned i ev1 ev2 s t :
  srv_running s = false ->
  workers s !! i = Some t ->
  exists t',
    workers (worker_step i ev2 (worker_step i ev1 s)) !! i = Some t' /\
    th_phase t' = Returned.
Proof.
  intros Hr Hi. pose proof (lookup_lt_Some _ _ _ Hi) as Hlt.
  unfold worker_step at 2. rewrite Hi.
  destruct (th_phase t) eqn:Ep.
  - unfold worker_step. simpl. rewrite list_lookup_insert_eq by exact Hlt.
    simpl. rewrite Hr. simpl. eexists.
    rewrite list_lookup_insert_eq by (rewrite length_insert; exact Hlt).
    split; reflexivity.
  - rewrite Hr. unfold worker_step. simpl.
    rewrite list_lookup_insert_eq by exact Hlt. simpl. eexists.
    rewrite list_lookup_insert_eq by exact Hlt. split; reflexivity.
  - unfold worker_step. rewrite Hi, Ep. eauto.
Qed.

Lemma worker_step_Returned_stays i ev s j t :
  workers s !! j = Some t -> th_phase t = Returned ->
  workers (worker_step i ev s) !! j = Some t.
Proof.
  intros Hj Hp. destruct (decide (i = j)) as [->|Hne].
  - unfold worker_step. rewrite Hj, Hp. exact Hj.
  - rewrite worker_step_lookup_ne by exact Hne. exact Hj.
Qed.

Lemma worker_turns_all_returned n :
  forall s,
    srv_running s = false ->
    let s' := server_run (worker_turns n) s in
    srv_running s' = false /\
    threads s' = threads s /\ pc s' = pc s /\
    length (workers s') = length (workers s) /\
    forall i, i < n -> i < length (workers s) ->
              exists t, workers s' !! i = Some t /\ th_phase t = Returned.
Proof.
  induction n as [|n IH]; intros s Hr; simpl.
  - split; [exact Hr|]. split; [reflexivity|]. split; [reflexivity|].
    split; [reflexivity|]. intros i Hi. lia.
  - unfold server_run. rewrite foldl_app. fold (server_run (worker_turns n) s).
    destruct (IH s Hr) as (Hr1 & Ht1 & Hpc1 & Hl1 & Hall1).
    set (s1 := server_run (worker_turns n) s) in *. simpl.
    split; [auto using worker_step_running_false|].
    split; [rewrite !worker_step_threads; exact Ht1|].
    split; [rewrite !worker_step_pc; exact Hpc1|].
    split; [rewrite !worker_step_length; exact Hl1|].
    intros i Hi Hlen. destruct (decide (i = n)) as [->|Hne].
    + destruct (lookup_lt_is_Some_2 (workers s1) n) as [t Ht]; [lia|].
      apply (worker_two_steps_returned n _ _ s1 t Hr1 Ht).
    + destruct (Hall1 i) as (t & Ht & Hp); [lia|exact Hlen|].
      exists t. split; [|exact Hp].
      apply worker_step_Returned_stays; [|exact Hp].
      apply worker_step_Returned_stays; [exact Ht|exact Hp].
Qed.

(* With `running` false, every future ready and main neither in select
   nor in the hand-over loop, each step of main brings it closer to the
   close of the listening socket. *)
Lemma main_step_drains ev s :
  srv_running s = false ->
  settled s ->
  (forall h, h ∈ threads s -> future_ready s h = true) ->
  let s' := main_step ev s in
  srv_running s' = false /\
  settled s' /\
  (forall h, h ∈ threads s' -> future_ready s' h = true) /\
  main_turns_left s' <= pred (main_turns_left s).
Proof.
  intros Hr Hs Hall. unfold settled in *.
  unfold main_step, reap_iter, main_turns_left.
  destruct (pc s) as [| | |i|k|] eqn:Epc; try contradiction.
  - rewrite Hr. simpl. repeat split; [exact Hr|exact Hall|lia].
  - destruct (threads s !! i) as [h|] eqn:Ei.
    + rewrite (Hall h) by (eapply list_elem_of_lookup_2, Ei). simpl.
      split; [exact Hr|]. split; [exact I|]. split.
      * intros h' H. apply (Hall h'). eapply elem_of_delete, H.
      * rewrite length_delete by eauto.
        apply lookup_lt_Some in Ei. lia.
    + simpl. repeat split; [exact Hr|exact Hall|lia].
  - destruct (threads s !! k) as [h|] eqn:Ek.
    + rewrite (Hall h) by (eapply list_elem_of_lookup_2, Ek). simpl.
      apply lookup_lt_Some in Ek.
      repeat split; [exact Hr|exact Hall|lia].
    + simpl. repeat split; [exact Hr|exact Hall|lia].
  - rewrite Epc. repeat split; [exact Hr|exact Hall|lia].
Qed.

Lemma main_drains evs :
  forall s,
    srv_running s = false ->
    settled s ->
    (forall h, h ∈ threads s -> future_ready s h = true) ->
    main_turns_left s <= length evs ->
    pc (server_run (map MainStep evs) s) = Exited.
Proof.
  induction evs as [|ev evs IH]; intros s Hr Hs Hall Hn; simpl in *.
  - unfold main_turns_left, settled in *.
    destruct (pc s); try lia; try contradiction. reflexivity.
  - destruct (main_step_drains ev s Hr Hs Hall) as (Hr' & Hs' & Hall' & Hm).
    apply IH; [exact Hr'|exact Hs'|exact Hall'|lia].
Qed.

(* Once `running` is false main leaves select and accept by its next
   step, and the hand-over loop when wait_for returns no_timeout. *)
Lemma main_settles ev s :
  srv_running s = false ->
  settled (server_run [MainStep ev; MainWait no_timeout] s).
Proof.
  intros Hr. unfold settled. simpl. unfold main_wait, main_step, reap_iter.
  destruct (pc s) as [| | |i|k|] eqn:Epc.
  - rewrite Hr. simpl. exact I.
  - destruct ev; simpl; exact I.
  - rewrite Epc. simpl. exact I.
  - destruct (threads s !! i) as [h|]; [destruct (future_ready s h)|];
      simpl; exact I.
  - destruct (threads s !! k) as [h|]; [destruct (future_ready s h)|];
      simpl; rewrite ?Epc; simpl; rewrite ?Epc; exact I.
  - rewrite Epc, Epc. exact I.
Qed.

Lemma handover_step l s :
  pc s = Handover -> keeps_waiting l = true ->
  pc (server_step l s) = Handover.
Proof.
  intros Hpc Hl. destruct l as [ev|[|]|i ev]; simpl.
  - unfold main_step. rewrite Hpc. exact Hpc.
  - discriminate.
  - unfold main_wait. rewrite Hpc. exact Hpc.
  - rewrite worker_step_pc. exact Hpc.
Qed.

Lemma handover_run ls :
  forall s,
    pc s = Handover -> forallb keeps_waiting ls = true ->
    pc (server_run ls s) = Handover.
Proof.
  induction ls as [|l ls IH]; intros s Hpc Hls; [exact Hpc|].
  simpl in Hls. apply andb_prop in Hls as [Hl Hls].
  simpl. apply IH; [apply handover_step; assumption|exact Hls].
Qed.

Lemma server_run_app ls1 ls2 s :
  server_run (ls1 ++ ls2) s = server_run ls2 (server_run ls1 s).
Proof. unfold server_run. apply foldl_app. Qed.

(* From a reachable state with `running` false and main out of select
   and of the hand-over loop, two turns of every thread and then
   enough steps of main end the process. *)
Lemma settled_drains ls evs :
  let s := server_run ls server_init in
  srv_running s = false ->
  settled s ->
  2 * length (threads s) + 3 <= length evs ->
  pc (server_run (worker_turns (length (workers s)) ++ map MainStep evs) s)
  = Exited.
Proof.
  intros s Hr Hs Hn. rewrite server_run_app.
  destruct (worker_turns_all_returned (length (workers s)) s Hr)
    as (Hr1 & Ht1 & Hpc1 & Hl1 & Hall1).
  set (s1 := server_run (worker_turns (length (workers s))) s) in *.
  apply main_drains; [exact Hr1| | |].
  - unfold settled. rewrite Hpc1. exact Hs.
  - intros h Hh. rewrite Ht1 in Hh.
    pose proof (handles_valid_reachable ls h Hh) as Hlt. fold s in Hlt.
    destruct (Hall1 h Hlt Hlt) as (t & Ht & Hp).
    unfold future_ready. rewrite Ht, Hp. reflexivity.
  - unfold main_turns_left. rewrite Hpc1, Ht1. destruct (pc s); lia.
Qed.

(** X5: shutdown ends the process, provided the hand-over loop of main
    ends.  From every reachable state in which `running` is false, let
    main take one step (which finishes the select and accept it may be
    in, and may still start one thread) and let one wait_for return
    no_timeout (which ends the hand-over loop it may be in); then, once
    each started thread has been scheduled twice, main reaches the
    close of the listening socket within 2 * n + 3 of its own steps, n
    being the number of futures in its vector, whatever its sockets
    report in those steps.  From a state in which main is neither in
    select and accept nor in the hand-over loop the same holds at
    once.  But in the hand-over loop main stays, and does not reach the
    close, as long as no wait_for returns no_timeout, whatever the
    value of `running` and whatever the other threads do. *)
Theorem shutdown_terminates :
  (forall ls ev evs,
      srv_running (server_run ls server_init) = false ->
      let s := server_run (ls ++ [MainStep ev; MainWait no_timeout])
                 server_init in
      2 * length (threads s) + 3 <= length evs ->
      pc (server_run (worker_turns (length (workers s)) ++ map MainStep evs) s)
      = Exited) /\
  (forall ls evs,
      let s := server_run ls server_init in
      srv_running s = false ->
      settled s ->
      2 * length (threads s) + 3 <= length evs ->
      pc (server_run (worker_turns (length (workers s)) ++ map MainStep evs) s)
      = Exited) /\
  (forall ls s,
      pc s = Handover -> forallb keeps_waiting ls = true ->
      pc (server_run ls s) = Handover).
Proof.
  split; [|split; [exact settled_drains|exact handover_run]].
  intros ls ev evs Hr s Hn. apply settled_drains; [| |exact Hn].
  - rewrite server_run_app. apply server_run_running_false, Hr.
  - rewrite server_run_app. apply main_settles, Hr.
Qed.

Lemma shutdown_terminates_witness :
  let ls := accept_one ++
            [MainStep Accepted; WorkerStep 0 SelectTimeout;
             WorkerStep 0 (RecvData [ascii_of_nat 101; ascii_of_nat 120; LF])] in
  let s := server_run (ls ++ [MainStep Accepted; MainWait no_timeout])
             server_init in
  srv_running (server_run ls server_init) = false /\
  length (workers (server_run ls server_init)) = 1 /\
  length (workers s) = 2 /\
  pc (server_run
        (worker_turns 2 ++
         map MainStep [ListenTimeout; Accepted; ListenTimeout; Accepted;
                       ListenTimeout; Accepted; ListenTimeout]) s) = Exited /\
  pc (server_run [MainStep ListenTimeout; MainWait timeout;
                  WorkerStep 0 (RecvData [])]
        (server_run [MainStep Accepted; MainStep Accepted] server_init))
  = Handover.
Proof.
  split; [reflexivity|]. split; [reflexivity|]. split; [reflexivity|]. split.
  - apply (proj1 shutdown_terminates
             (accept_one ++
              [MainStep Accepted; WorkerStep 0 SelectTimeout;
               WorkerStep 0
                 (RecvData [ascii_of_nat 101; ascii_of_nat 120; LF])])
             Accepted
             [ListenTimeout; Accepted; ListenTimeout; Accepted;
              ListenTimeout; Accepted; ListenTimeout]);
      [reflexivity|simpl; lia].
  - apply (proj2 (proj2 shutdown_terminates)); reflexivity.
Defined.

(* --------------------------------------------------------------------- *)
(* Lines joined by a space, and the shape of tokens                      *)
(* --------------------------------------------------------------------- *)

Lemma scan_token_app a b :
  scan_token (a +:+ String " " b) =
  (fst (scan_token a),
   if has_space a then snd (scan_token a) +:+ String " " b else b).
Proof.
  induction a as [|chr rest IH]; [reflexivity|].
  rewrite append_cons. simpl.
  destruct (Ascii.eqb chr " "); [reflexivity|].
  rewrite IH. destruct (scan_token rest) as [tok save]. reflexivity.
Qed.

Lemma scan_token_snd_length s :
  String.length (snd (scan_token s)) <= String.length s.
Proof.
  destruct s as [|chr rest]; [simpl; lia|].
  pose proof (scan_token_length chr rest). lia.
Qed.

Lemma scan_token_no_space s :
  has_space s = false -> scan_token s = (s, EmptyString).
Proof.
  induction s as [|chr rest IH]; [reflexivity|]. simpl.
  destruct (Ascii.eqb chr " "); [discriminate|]. simpl.
  intros H. rewrite (IH H). reflexivity.
Qed.

Lemma strtok_all_app a :
  forall b, strtok_all (a +:+ String " " b) = strtok_all a ++ strtok_all b.
Proof.
  remember (String.length a) as n eqn:Hn. revert a Hn.
  induction n as [n IH] using lt_wf_ind. intros a -> b.
  destruct a as [|chr rest].
  - change (EmptyString +:+ String " " b) with (String " " b).
    rewrite strtok_all_space. reflexivity.
  - rewrite append_cons. destruct (Ascii.eqb chr " ") eqn:E.
    + apply Ascii.eqb_eq in E as ->. rewrite !strtok_all_space.
      apply (IH (String.length rest)); [simpl; lia|reflexivity].
    + rewrite !(strtok_all_chr _ _ E), scan_token_app. simpl.
      f_equal. destruct (has_space rest) eqn:Hs.
      * apply (IH (String.length (snd (scan_token rest))));
          [|reflexivity].
        pose proof (scan_token_snd_length rest). simpl. lia.
      * rewrite (scan_token_no_space _ Hs). reflexivity.
Qed.

Lemma c_str_app a s : c_str a = a -> c_str (a +:+ s) = a +:+ c_str s.
Proof.
  induction a as [|chr rest IH]; [reflexivity|].
  rewrite !append_cons. simpl.
  destruct (Ascii.eqb chr NUL); [discriminate|].
  intros H. injection H as H. rewrite (IH H). reflexivity.
Qed.

(** X6: a line made of two lines joined by a space has the effect of
    the first line followed by the effect of the second, provided the
    first holds no NUL (c_str line1 = line1, as for every line a worker
    builds). *)
Theorem connection_command_joined_lines :
  forall line1 line2 st,
    c_str line1 = line1 ->
    connection_command (line1 +:+ String " " line2) st =
    connection_command line2 (connection_command line1 st).
Proof.
  intros line1 line2 st H.
  rewrite !connection_command_dispatch_all, (c_str_app _ _ H).
  change (c_str (String " " line2)) with (String " " (c_str line2)).
  rewrite strtok_all_app, dispatch_all_app, H. reflexivity.
Qed.

Lemma connection_command_joined_lines_witness :
  c_str "dir foo" = "dir foo" /\
  connection_command ("dir foo" +:+ String " " "ex DIR")
    {| running := true; os := "" |} =
  connection_command "ex DIR"
    (connection_command "dir foo" {| running := true; os := "" |}).
Proof.
  split; [reflexivity|].
  apply (connection_command_joined_lines "dir foo" "ex DIR"). reflexivity.
Defined.

Lemma scan_token_fst_no_space s : has_space (fst (scan_token s)) = false.
Proof.
  induction s as [|chr rest IH]; [reflexivity|]. simpl.
  destruct (Ascii.eqb chr " ") eqn:E; [reflexivity|].
  destruct (scan_token rest) as [tok save]. simpl in *. rewrite E. exact IH.
Qed.

Lemma skip_delim_head s chr rest :
  skip_delim s = String chr rest -> Ascii.eqb chr " " = false.
Proof.
  induction s as [|c s IH]; simpl; [discriminate|].
  destruct (Ascii.eqb c " ") eqn:E; [exact IH|].
  intros H. injection H as <- _. exact E.
Qed.

Lemma strtok_r_token save token save' :
  strtok_r save = Some (token, save') ->
  token <> EmptyString /\ has_space token = false.
Proof.
  unfold strtok_r. destruct (skip_delim save) as [|chr rest] eqn:E;
    [discriminate|].
  intros H.
  pose proof (skip_delim_head _ _ _ E) as Hc.
  pose proof (scan_token_fst_no_space (String chr rest)) as Hs.
  assert (fst (scan_token (String chr rest)) <> EmptyString) as Hne.
  { simpl. rewrite Hc. destruct (scan_token rest). discriminate. }
  destruct (scan_token (String chr rest)) as [t s'].
  injection H as -> ->. split; assumption.
Qed.

(** X7: the strtok_r loop never hands out an empty token and never a
    token with a space in it, whatever the line; so the table is never
    looked up with the empty string. *)
Theorem tokens_nonempty_without_space :
  forall line,
    Forall (fun token => token <> EmptyString /\ has_space token = false)
           (strtok_all (c_str line)).
Proof.
  intros line. generalize (c_str line). clear line. intros save.
  induction save as [save IH] using strtok_ind.
  rewrite strtok_all_step.
  destruct (strtok_r save) as [[token save']|] eqn:E; [|constructor].
  apply Forall_cons_2; [eapply strtok_r_token, E|].
  eapply IH. reflexivity.
Qed.

Lemma toupper_chr_idem chr : toupper_chr (toupper_chr chr) = toupper_chr chr.
Proof. by_char chr. Qed.

Lemma toupper_chr_not_lower chr : islower (toupper_chr chr) = false.
Proof. by_char chr. Qed.

Lemma toupper_chr_fixed chr : islower chr = false -> toupper_chr chr = chr.
Proof. by_char chr. Qed.

(** X8: toupper keeps the length of the string, leaves a string without
    the letters a .. z as it is, yields a string without those letters,
    and applied twice does what it does once. *)
Theorem toupper_properties :
  forall str,
    String.length (toupper str) = String.length str /\
    all_chr (fun chr => negb (islower chr)) (toupper str) = true /\
    toupper (toupper str) = toupper str /\
    (all_chr (fun chr => negb (islower chr)) str = true -> toupper str = str).
Proof.
  induction str as [|chr rest (IH1 & IH2 & IH3 & IH4)]; simpl.
  - repeat split.
  - split; [rewrite IH1; reflexivity|].
    split; [rewrite toupper_chr_not_lower, IH2; reflexivity|].
    split; [rewrite toupper_chr_idem, IH3; reflexivity|].
    intros [Hc Hr]%andb_true_iff. apply negb_true_iff in Hc.
    rewrite (toupper_chr_fixed _ Hc), (IH4 Hr). reflexivity.
Qed.

Lemma toupper_properties_witness :
  all_chr (fun chr => negb (islower chr)) "DIR 42" = true /\
  toupper "DIR 42" = "DIR 42".
Proof.
  split; [reflexivity|].
  apply (toupper_properties "DIR 42"). reflexivity.
Defined.

(* --------------------------------------------------------------------- *)
(* CommandLine: looking options up                                       *)
(* --------------------------------------------------------------------- *)

(** X9: FindOption after AddOption: a long name that an earlier option
    already has keeps resolving to that earlier option, at the same
    position; a name no earlier option has resolves to the new option,
    at the end of the table, when it is the name just added, and to
    nothing otherwise. *)
Theorem FindOption_AddOption :
  forall name0 long_name0 short_name0 required0 has_value0 occurs_type0
         occurs_value0 help0 present0 count0 options,
    FindOption name0
      (AddOption long_name0 short_name0 required0 has_value0 occurs_type0
         occurs_value0 help0 present0 count0 options) =
    match FindOption name0 options with
    | Some found => Some found
    | None =>
        if decide (long_name0 = name0)
        then Some (length options,
                   {| long_name := long_name0; short_name := short_name0;
                      required := required0; has_value := has_value0;
                      occurs_type := occurs_type0;
                      occurs_value := occurs_value0; help := help0;
                      present := present0; count := count0; value := [] |})
        else None
    end.
Proof.
  intros. unfold FindOption, AddOption.
  destruct (list_find (fun o => long_name o = name0) options)
    as [[i o]|] eqn:E.
  - apply list_find_app_l, E.
  - rewrite list_find_app_r by exact E. simpl.
    destruct (decide (long_name0 = name0)); reflexivity.
Qed.

(** X10: GetOptionValues and IsOptionValue, by long name or by short
    name.  When IsOptionValue is false (no option of that name, or one
    that did not occur) GetOptionValues is the one-element vector
    holding the empty string; when it is true, GetOptionValues is the
    value vector of the first option of that name, whose count is
    positive.  After Clean no name is found. *)
Theorem option_values_default :
  forall options,
    (forall found,
        occurred_at found = false -> values_at found = [EmptyString]) /\
    (forall name0,
        IsOptionValue name0 options = true ->
        exists i o,
          options !! i = Some o /\ long_name o = name0 /\ (0 < count o)%Z /\
          GetOptionValues name0 options = value o /\
          forall j o', options !! j = Some o' -> j < i ->
                       long_name o' <> name0) /\
    (forall chr,
        IsOptionValue_short chr options = true ->
        exists i o,
          options !! i = Some o /\ short_name o = chr /\ (0 < count o)%Z /\
          GetOptionValues_short chr options = value o /\
          forall j o', options !! j = Some o' -> j < i ->
                       short_name o' <> chr) /\
    (forall name0, IsOptionValue name0 (Clean options) = false) /\
    (forall name0, GetOptionValues name0 (Clean options) = [EmptyString]).
Proof.
  intros options. split; [|split; [|split; [|split]]].
  - intros [[i o]|]; simpl; [|reflexivity]. intros ->. reflexivity.
  - intros name0. unfold IsOptionValue, GetOptionValues, FindOption.
    destruct (list_find _ options) as [[i o]|] eqn:E; simpl; [|discriminate].
    intros Hc. apply list_find_Some in E as (Hi & Hn & Hleast).
    exists i, o. rewrite Hc. apply Z.ltb_lt in Hc. auto 10.
  - intros chr. unfold IsOptionValue_short, GetOptionValues_short,
      FindOption_short.
    destruct (list_find _ options) as [[i o]|] eqn:E; simpl; [|discriminate].
    intros Hc. apply list_find_Some in E as (Hi & Hn & Hleast).
    exists i, o. rewrite Hc. apply Z.ltb_lt in Hc. auto 10.
  - reflexivity.
  - reflexivity.
Qed.

Lemma option_values_default_witness :
  let options :=
    [{| long_name := "host"; short_name := "h"; required := false;
        has_value := Required; occurs_type := AtMost; occurs_value := 1;
        help := ""; present := 1; count := 1; value := ["example.org"] |}] in
  IsOptionValue "host" options = true /\
  IsOptionValue "port" options = false /\
  GetOptionValues "port" options = [EmptyString].
Proof.
  split; [reflexivity|]. split; [reflexivity|].
  apply (proj1 (option_values_default [])). reflexivity.
Defined.

(* --------------------------------------------------------------------- *)
(* CommandLine: validation                                               *)
(* --------------------------------------------------------------------- *)

Lemma validate_message_valid o : validate_message o = None <-> option_valid o.
Proof.
  unfold validate_message, option_valid.
  destruct (count o =? 0)%Z eqn:E0.
  - apply Z.eqb_eq in E0. destruct (required o); split.
    + discriminate.
    + intros [[_ H]|[H _]]; [discriminate|contradiction].
    + auto.
    + reflexivity.
  - apply Z.eqb_neq in E0. destruct (occurs_type o).
    + destruct (count o <? occurs_value o)%Z eqn:E; split.
      * discriminate.
      * apply Z.ltb_lt in E. intros [[H _]|[_ H]]; [contradiction|lia].
      * apply Z.ltb_ge in E. auto.
      * reflexivity.
    + destruct (occurs_value o <? count o)%Z eqn:E; split.
      * discriminate.
      * apply Z.ltb_lt in E. intros [[H _]|[_ H]]; [contradiction|lia].
      * apply Z.ltb_ge in E. auto.
      * reflexivity.
    + destruct (count o =? occurs_value o)%Z eqn:E; simpl; split.
      * apply Z.eqb_eq in E. auto.
      * reflexivity.
      * discriminate.
      * apply Z.eqb_neq in E. intros [[H _]|[_ H]]; contradiction.
Qed.

Lemma validate_message_not_empty o text :
  validate_message o = Some text -> text <> EmptyString.
Proof.
  unfold validate_message.
  destruct (count o =? 0)%Z.
  - destruct (required o); [|discriminate].
    intros H. injection H as <-. discriminate.
  - destruct (occurs_type o);
      match goal with |- context [if ?c then _ else _] => destruct c end;
      try discriminate; intros H; injection H as <-; discriminate.
Qed.

Lemma append_same_l s t : s +:+ t = s -> t = EmptyString.
Proof.
  intros H. apply (String.app_inj s). rewrite H, append_empty_r.
  reflexivity.
Qed.

Lemma append_empty_inv s t : s +:+ t = EmptyString -> t = EmptyString.
Proof. destruct s; [intros H; exact H|discriminate]. Qed.

Lemma validate_loop_spec options :
  forall rc error_message,
    exists rc' suffix,
      validate_loop options rc error_message =
      (rc', error_message +:+ suffix) /\
      (rc' = true <-> rc = true /\ Forall option_valid options) /\
      (suffix = EmptyString <-> Forall option_valid options).
Proof.
  induction options as [|o rest IH]; intros rc error_message; simpl.
  - exists rc, EmptyString. rewrite append_empty_r.
    split; [reflexivity|]. split; split; auto.
    intros [H _]. exact H.
  - destruct (validate_message o) as [text|] eqn:E.
    + destruct (IH false (error_message +:+ text))
        as (rc' & suffix & -> & Hrc & Hs).
      exists rc', (text +:+ suffix). rewrite append_assoc.
      assert (~ Forall option_valid (o :: rest)) as Hn.
      { intros H. apply Forall_cons in H as [H _].
        apply validate_message_valid in H. congruence. }
      split; [reflexivity|]. split; split.
      * intros H. apply Hrc in H as [H _]. discriminate.
      * intros [_ H]. contradiction.
      * intros H. pose proof (validate_message_not_empty _ _ E) as Ht.
        destruct text; [contradiction|discriminate].
      * contradiction.
    + apply validate_message_valid in E.
      destruct (IH rc error_message) as (rc' & suffix & -> & Hrc & Hs).
      exists rc', suffix. split; [reflexivity|].
      rewrite Hrc, Hs, Forall_cons. tauto.
Qed.

(** X11: ValidateOptions returns true exactly when every option is
    acceptable: an option that did not occur must not be required, and
    one that occurred must have occurred at least, at most or exactly
    occurs_value times, as its occurs_type says.  It only appends to
    error_message, and it appends nothing exactly when it returns
    true. *)
Theorem ValidateOptions_spec :
  forall options error_message,
    (fst (ValidateOptions options error_message) = true <->
     Forall option_valid options) /\
    (exists suffix,
        snd (ValidateOptions options error_message) =
        error_message +:+ suffix) /\
    (fst (ValidateOptions options error_message) = true <->
     snd (ValidateOptions options error_message) = error_message).
Proof.
  intros options error_message. unfold ValidateOptions.
  destruct (validate_loop_spec options true error_message)
    as (rc' & suffix & -> & Hrc & Hs). simpl.
  assert (rc' = true <-> Forall option_valid options) as Hrc' by tauto.
  split; [exact Hrc'|]. split; [eauto|].
  rewrite Hrc', <- Hs. split.
  - intros ->. apply append_empty_r.
  - apply append_same_l.
Qed.

Lemma ValidateOptions_spec_witness :
  let options :=
    [{| long_name := "port"; short_name := "p"; required := false;
        has_value := Required; occurs_type := AtMost; occurs_value := 1;
        help := ""; present := 0; count := 2; value := ["80"; "81"] |}] in
  fst (ValidateOptions options "") = false /\
  snd (ValidateOptions options "") <> "".
Proof.
  split; [reflexivity|].
  intros H.
  apply (proj2 (proj2 (ValidateOptions_spec
                         [{| long_name := "port"; short_name := "p";
                             required := false; has_value := Required;
                             occurs_type := AtMost; occurs_value := 1;
                             help := ""; present := 0; count := 2;
                             value := ["80"; "81"] |}] ""))) in H.
  discriminate H.
Defined.

(* --------------------------------------------------------------------- *)
(* CommandLine: the parameters of getopt_long                            *)
(* --------------------------------------------------------------------- *)

Lemma build_loop_spec options :
  forall i short_opts long_opts,
    build_loop i options short_opts long_opts =
    (clear_flags <$> options, short_opts +:+ short_entries options,
     long_opts ++ long_entries i options).
Proof.
  induction options as [|o rest IH]; intros i short_opts long_opts; simpl.
  - rewrite append_empty_r, app_nil_r. reflexivity.
  - rewrite IH, append_assoc. unfold named.
    destruct (long_name o); simpl; [reflexivity|].
    rewrite <- app_assoc. reflexivity.
Qed.

Lemma long_entries_length options :
  forall i, length (long_entries i options) = length (List.filter named options).
Proof.
  induction options as [|o rest IH]; intros i; simpl; [reflexivity|].
  rewrite length_app, IH. destruct (named o); reflexivity.
Qed.

Lemma BuildParserParameters_eq options short_opts long_opts :
  BuildParserParameters options short_opts long_opts =
  (clear_flags <$> options,
   short_opts +:+ short_entries options,
   long_opts ++ long_entries 0 options ++ [long_opts_end]).
Proof.
  unfold BuildParserParameters. rewrite build_loop_spec.
  rewrite <- app_assoc. reflexivity.
Qed.

(** X12: BuildParserParameters sets count and present of every option
    to zero and changes nothing else of the table: the values stored
    before stay where they are, and so does what AddOption has set.  It appends to short_opts and to
    long_opts what it finds there: for long_opts one entry for each
    option with a long name, in the order of the table, and the
    all-zero entry last. *)
Theorem BuildParserParameters_spec :
  forall options short_opts long_opts,
    BuildParserParameters options short_opts long_opts =
    (clear_flags <$> options,
     short_opts +:+ short_entries options,
     long_opts ++ long_entries 0 options ++ [long_opts_end]) /\
    length (long_entries 0 options) = length (List.filter named options) /\
    (forall k o, options !! k = Some o ->
                 (clear_flags <$> options) !! k = Some (clear_flags o) /\
                 count (clear_flags o) = 0%Z /\
                 present (clear_flags o) = 0%Z /\
                 value (clear_flags o) = value o /\
                 static (clear_flags o) = static o).
Proof.
  intros options short_opts long_opts. split; [|split].
  - unfold BuildParserParameters. rewrite build_loop_spec, <- app_assoc.
    reflexivity.
  - apply long_entries_length.
  - intros k o Hk. rewrite list_lookup_fmap, Hk. repeat split.
Qed.

Lemma BuildParserParameters_spec_witness :
  let o := {| long_name := "port"; short_name := "p"; required := false;
              has_value := Required; occurs_type := AtMost;
              occurs_value := 1; help := ""; present := 1; count := 2;
              value := ["80"; "81"] |} in
  [o] !! 0 = Some o /\
  (clear_flags <$> [o]) !! 0 = Some (clear_flags o) /\
  count (clear_flags o) = 0%Z /\
  present (clear_flags o) = 0%Z /\
  value (clear_flags o) = ["80"; "81"].
Proof.
  split; [reflexivity|].
  destruct (proj2 (proj2 (BuildParserParameters_spec
                            [{| long_name := "port"; short_name := "p";
                                required := false; has_value := Required;
                                occurs_type := AtMost; occurs_value := 1;
                                help := ""; present := 1; count := 2;
                                value := ["80"; "81"] |}] "" []))
              0 _ eq_refl) as (H1 & Hc & Hp & H2 & _).
  split; [exact H1|]. split; [exact Hc|]. split; [exact Hp|exact H2].
Defined.

Lemma int_wrap_range z : (-2147483648 <= int_wrap z < 2147483648)%Z.
Proof.
  unfold int_wrap.
  pose proof (Z.mod_pos_bound (z + 2147483648) 4294967296). lia.
Qed.

Lemma int_wrap_small z :
  (-2147483648 <= z < 2147483648)%Z -> int_wrap z = z.
Proof. intros H. unfold int_wrap. rewrite Z.mod_small by lia. lia. Qed.

Lemma int_wrap_idem z : int_wrap (int_wrap z) = int_wrap z.
Proof. apply int_wrap_small, int_wrap_range. Qed.

Lemma int_wrap_add_l a b : int_wrap (int_wrap a + b) = int_wrap (a + b).
Proof.
  unfold int_wrap. f_equal.
  replace ((a + 2147483648) mod 4294967296 - 2147483648 + b + 2147483648)%Z
    with ((a + 2147483648) mod 4294967296 + b)%Z by lia.
  rewrite Zplus_mod_idemp_l. f_equal. lia.
Qed.

Lemma named_before_cons f o rest :
  named_before (S f) (o :: rest) =
  (if named o then 1 else 0) + named_before f rest.
Proof. unfold named_before. simpl. destruct (named o); reflexivity. Qed.

Lemma long_entries_lookup options :
  forall i f o,
    options !! f = Some o -> named o = true ->
    long_entries i options !! named_before f options =
    Some (long_entry (i + f) o).
Proof.
  induction options as [|o0 rest IH]; intros i f o Hf Hn; [discriminate|].
  destruct f as [|f]; simpl in Hf.
  - injection Hf as ->. simpl. rewrite Hn. simpl.
    rewrite Nat.add_0_r. reflexivity.
  - rewrite named_before_cons. simpl.
    replace (i + S f) with (S i + f) by lia.
    destruct (named o0); simpl; apply IH; assumption.
Qed.

Lemma filter_length_le {A} (p : A -> bool) l :
  length (List.filter p l) <= length l.
Proof.
  induction l as [|x l IH]; simpl; [lia|]. destruct (p x); simpl; lia.
Qed.

Lemma filter_length_all {A} (p : A -> bool) l :
  length (List.filter p l) = length l <-> Forall (fun x => p x = true) l.
Proof.
  induction l as [|x l IH]; simpl.
  - split; [constructor|reflexivity].
  - pose proof (filter_length_le p l) as Hle.
    destruct (p x) eqn:E; simpl; rewrite Forall_cons.
    + split.
      * intros H. split; [exact E|]. apply IH. lia.
      * intros [_ H]. f_equal. apply IH, H.
    + split; [lia|]. intros [H _]. congruence.
Qed.

(** X13: where a long match is counted.  The entry of long_opts built
    for option f (one with a long name) stands at the position that is
    the number of options with a long name before f, and it is the
    element of the table at that position whose count ParseCommandLine
    increments for a match of the entry, while getopt_long sets present
    of option f.  The position is f itself exactly when every option
    before f has a long name; otherwise it is smaller, and the match is
    counted for an earlier option.  The count is an int: the increment
    takes a count c to c + 1 wrapped to 32 bits, so INT_MAX to
    INT_MIN. *)
Theorem long_match_counted_at_entry_position :
  forall options f o,
    options !! f = Some o ->
    named o = true ->
    let long_opts := snd (BuildParserParameters options EmptyString []) in
    let k := named_before f options in
    long_opts !! k = Some (long_entry f o) /\
    k <= f /\
    (k = f <-> Forall (fun o' => named o' = true) (take f options)) /\
    (forall arg text options1 error_message,
        parse_call long_opts
          {| opt := 0; long_opt_index := k; optarg := arg; last_arg := text |}
          (options1, error_message) =
        (alter (count_match arg) k (alter (set_present 1) f options1),
         error_message)) /\
    (forall arg text options1 error_message o1,
        options1 !! k = Some o1 ->
        count <$>
          fst (parse_call long_opts
                 {| opt := 0; long_opt_index := k; optarg := arg;
                    last_arg := text |}
                 (options1, error_message)) !! k =
        Some (int_wrap (count o1 + 1)) /\
        ((count o1 < 2147483647)%Z -> (-2147483648 <= count o1)%Z ->
         int_wrap (count o1 + 1) = (count o1 + 1)%Z) /\
        (count o1 = 2147483647%Z ->
         int_wrap (count o1 + 1) = (-2147483648)%Z)).
Proof.
  intros options f o Hf Hn long_opts k.
  assert (long_opts !! k = Some (long_entry f o)) as Hk.
  { unfold long_opts, k.
    rewrite (BuildParserParameters_eq options EmptyString []).
    simpl. apply lookup_app_l_Some.
    apply (long_entries_lookup options 0 f o Hf Hn). }
  pose proof (lookup_lt_Some _ _ _ Hf) as Hlt.
  assert (length (take f options) = f) as Hlen
      by (rewrite length_take; lia).
  assert (forall arg text options1 error_message,
             parse_call long_opts
               {| opt := 0; long_opt_index := k; optarg := arg;
                  last_arg := text |}
               (options1, error_message) =
             (alter (count_match arg) k (alter (set_present 1) f options1),
              error_message)) as Hcall.
  { intros arg text options1 error_message. unfold parse_call. simpl.
    unfold getopt_sets_flag. rewrite Hk. reflexivity. }
  split; [exact Hk|]. split; [|split; [|split]].
  - unfold k, named_before.
    pose proof (filter_length_le named (take f options)). lia.
  - unfold k, named_before. rewrite <- filter_length_all, Hlen.
    reflexivity.
  - exact Hcall.
  - intros arg text options1 error_message o1 H1. split; [|split].
    + rewrite Hcall. cbn [fst]. rewrite list_lookup_alter_eq.
      destruct (decide (f = k)) as [Heq|Hne].
      * rewrite Heq, list_lookup_alter_eq, H1. reflexivity.
      * rewrite list_lookup_alter_ne by exact Hne. rewrite H1. reflexivity.
    + intros Hlt1 Hge1. apply int_wrap_small. lia.
    + intros ->. reflexivity.
Qed.

Lemma long_match_counted_at_entry_position_witness :
  let options :=
    [{| long_name := ""; short_name := "v"; required := false;
        has_value := No; occurs_type := AtMost; occurs_value := 1;
        help := ""; present := 0; count := 2147483647; value := [] |};
     {| long_name := "port"; short_name := "p"; required := false;
        has_value := Required; occurs_type := AtMost; occurs_value := 1;
        help := ""; present := 0; count := 0; value := [] |}] in
  named_before 1 options = 0 /\
  map count
    (fst (parse_call (snd (BuildParserParameters options EmptyString []))
            {| opt := 0; long_opt_index := 0; optarg := Some "80";
               last_arg := "80" |}
            (options, EmptyString))) = [(-2147483648)%Z; 0%Z] /\
  map present
    (fst (parse_call (snd (BuildParserParameters options EmptyString []))
            {| opt := 0; long_opt_index := 0; optarg := Some "80";
               last_arg := "80" |}
            (options, EmptyString))) = [0%Z; 1%Z].
Proof.
  split; [reflexivity|].
  rewrite (proj1 (proj2 (proj2 (proj2
             (long_match_counted_at_entry_position
                [{| long_name := ""; short_name := "v"; required := false;
                    has_value := No; occurs_type := AtMost;
                    occurs_value := 1; help := ""; present := 0;
                    count := 2147483647; value := [] |};
                 {| long_name := "port"; short_name := "p";
                    required := false; has_value := Required;
                    occurs_type := AtMost; occurs_value := 1; help := "";
                    present := 0; count := 0; value := [] |}]
                1 _ eq_refl eq_refl))))).
  split; reflexivity.
Defined.

(* --------------------------------------------------------------------- *)
(* CommandLine: what ParseCommandLine does to the table                  *)
(* --------------------------------------------------------------------- *)

Lemma static_short_name o o' : static o = static o' -> short_name o = short_name o'.
Proof. unfold static. intros H. injection H. auto. Qed.

Lemma static_long_name o o' : static o = static o' -> long_name o = long_name o'.
Proof. unfold static. intros H. injection H. auto. Qed.

Lemma static_has_value o o' : static o = static o' -> has_value o = has_value o'.
Proof. unfold static. intros H. injection H. auto. Qed.

Lemma static_alter (f : CommandLineOption -> CommandLineOption) (i : nat)
    (options : list CommandLineOption) :
  (forall o, static (f o) = static o) ->
  static <$> alter f i options = static <$> options.
Proof.
  intros Hf. revert i. induction options as [|o rest IH]; intros i;
    [reflexivity|].
  destruct i as [|i]; simpl.
  - rewrite Hf. reflexivity.
  - f_equal. apply IH.
Qed.

Lemma static_getopt_sets_flag long_opts index
    (options : list CommandLineOption) :
  static <$> getopt_sets_flag long_opts index options = static <$> options.
Proof.
  unfold getopt_sets_flag. destruct (long_opts !! index) as [entry|];
    [|reflexivity].
  destruct (flag entry); [|reflexivity]. apply static_alter. reflexivity.
Qed.

Lemma static_parse_call long_opts g (options : list CommandLineOption)
    error_message :
  static <$> fst (parse_call long_opts g (options, error_message)) =
  static <$> options.
Proof.
  unfold parse_call.
  destruct ((opt g =? 63)%Z || (opt g =? 58)%Z); [reflexivity|].
  destruct (opt g =? 0)%Z; simpl.
  - rewrite static_alter by reflexivity. apply static_getopt_sets_flag.
  - destruct (FindOption_short _ options) as [[i o]|]; [|reflexivity].
    simpl. apply static_alter. reflexivity.
Qed.

(* Which element a name resolves to depends on the names alone. *)
Lemma list_find_static (P : CommandLineOption -> Prop)
    `{!forall o, Decision (P o)} (l : list CommandLineOption) :
  (forall o o', static o = static o' -> P o <-> P o') ->
  forall l', static <$> l = static <$> l' ->
             fst <$> list_find P l = fst <$> list_find P l'.
Proof.
  intros HP. induction l as [|o rest IH]; intros [|o' rest'] Heq;
    try discriminate; [reflexivity|].
  assert (static o = static o') as Ho
      by (apply (f_equal head) in Heq; cbn [head fmap list_fmap] in Heq;
          congruence).
  assert (static <$> rest = static <$> rest') as Hrest
      by (apply (f_equal tail) in Heq; exact Heq).
  simpl.
  pose proof (HP o o' Ho) as Hiff. specialize (IH rest' Hrest).
  destruct (decide (P o)), (decide (P o')); try tauto; try reflexivity.
  destruct (list_find P rest) as [[i x]|],
           (list_find P rest') as [[i' x']|];
    simpl in *; congruence.
Qed.

Lemma FindOption_short_static chr (l l' : list CommandLineOption) :
  static <$> l = static <$> l' ->
  fst <$> FindOption_short chr l = fst <$> FindOption_short chr l'.
Proof.
  apply list_find_static. intros o o' H.
  rewrite (static_short_name _ _ H). reflexivity.
Qed.

Lemma FindOption_static name0 (l l' : list CommandLineOption) :
  static <$> l = static <$> l' ->
  fst <$> FindOption name0 l = fst <$> FindOption name0 l'.
Proof.
  apply list_find_static. intros o o' H.
  rewrite (static_long_name _ _ H). reflexivity.
Qed.

Lemma hits_static (l l' : list CommandLineOption) k g :
  static <$> l = static <$> l' -> hits l k g = hits l' k g.
Proof.
  intros H. unfold hits.
  pose proof (FindOption_short_static (char_of_opt (opt g)) l l' H) as Hf.
  destruct (is_error g); [reflexivity|].
  destruct (opt g =? 0)%Z; [reflexivity|].
  destruct (FindOption_short _ l) as [[i o]|],
           (FindOption_short _ l') as [[i' o']|];
    simpl in Hf; congruence.
Qed.

Lemma lookup_getopt_sets_flag long_opts index
    (options : list CommandLineOption) k o :
  options !! k = Some o ->
  exists o',
    getopt_sets_flag long_opts index options !! k = Some o' /\
    static o' = static o /\ count o' = count o /\ value o' = value o.
Proof.
  intros Hk. unfold getopt_sets_flag.
  destruct (long_opts !! index) as [entry|]; [|eauto].
  destruct (flag entry) as [i|]; [|eauto].
  destruct (decide (i = k)) as [->|Hne].
  - rewrite list_lookup_alter_eq, Hk. simpl. eauto.
  - rewrite list_lookup_alter_ne by exact Hne. eauto.
Qed.

(* One result of getopt_long, seen from element k of the table. *)
Lemma lookup_parse_call long_opts g (options : list CommandLineOption)
    error_message k o :
  options !! k = Some o ->
  exists o',
    fst (parse_call long_opts g (options, error_message)) !! k = Some o' /\
    static o' = static o /\
    count o' = (if hits options k g then int_wrap (count o + 1) else count o) /\
    value o' = value o ++ (if hits options k g then stored g else []).
Proof.
  intros Hk. unfold parse_call, hits, is_error.
  destruct ((opt g =? 63)%Z || (opt g =? 58)%Z).
  { exists o. rewrite app_nil_r. auto. }
  destruct (opt g =? 0)%Z; simpl.
  - destruct (lookup_getopt_sets_flag long_opts (long_opt_index g)
                options k o Hk) as (o1 & H1 & Hs & Hc & Hv).
    destruct (Nat.eqb_spec (long_opt_index g) k) as [Heq|Hne].
    + rewrite Heq in *. rewrite list_lookup_alter_eq, H1. simpl. eexists. split; [reflexivity|].
      unfold stored. simpl. rewrite Hc, Hv.
      split; [exact Hs|]. split; [reflexivity|].
      destruct (optarg g); [reflexivity|]. rewrite app_nil_r. reflexivity.
    + rewrite list_lookup_alter_ne by exact Hne. exists o1.
      rewrite app_nil_r. auto.
  - destruct (FindOption_short _ options) as [[i x]|]; simpl.
    + destruct (Nat.eqb_spec i k) as [->|Hne].
      * rewrite list_lookup_alter_eq, Hk. simpl. eexists.
        split; [reflexivity|]. unfold stored. simpl.
        split; [reflexivity|]. split; [reflexivity|].
        destruct (optarg g); [reflexivity|]. rewrite app_nil_r. reflexivity.
      * rewrite list_lookup_alter_ne by exact Hne. exists o.
        rewrite app_nil_r. auto.
    + exists o. rewrite app_nil_r. auto.
Qed.

(* The same result, seen from present of element k: only getopt_long
   writes it, and it writes the val of the entry, which is 1. *)
Lemma present_parse_call long_opts g (options : list CommandLineOption)
    error_message k o :
  (forall j entry i, long_opts !! j = Some entry -> flag entry = Some i ->
                     val entry = 1%Z) ->
  options !! k = Some o ->
  exists o',
    fst (parse_call long_opts g (options, error_message)) !! k = Some o' /\
    present o' = if flags long_opts k g then 1%Z else present o.
Proof.
  intros Hval Hk. unfold parse_call, flags, is_error.
  destruct ((opt g =? 63)%Z || (opt g =? 58)%Z); [eauto|].
  destruct (opt g =? 0)%Z; simpl.
  - assert (exists o1,
               getopt_sets_flag long_opts (long_opt_index g) options !! k
               = Some o1 /\
               present o1 =
               match long_opts !! long_opt_index g with
               | Some entry =>
                   match flag entry with
                   | Some i => if Nat.eqb i k then 1%Z else present o
                   | None => present o
                   end
               | None => present o
               end) as (o1 & H1 & Hp1).
    { unfold getopt_sets_flag.
      destruct (long_opts !! long_opt_index g) as [entry|] eqn:Ee; [|eauto].
      destruct (flag entry) as [i|] eqn:Ef; [|eauto].
      destruct (Nat.eqb_spec i k) as [->|Hne].
      - rewrite list_lookup_alter_eq, Hk. simpl. eexists.
        split; [reflexivity|]. simpl. eapply Hval; eassumption.
      - rewrite list_lookup_alter_ne by exact Hne. eauto. }
    assert (exists o',
               alter (count_match (optarg g)) (long_opt_index g)
                 (getopt_sets_flag long_opts (long_opt_index g) options) !! k
               = Some o' /\ present o' = present o1) as (o' & H' & Hp').
    { destruct (decide (long_opt_index g = k)) as [Heq|Hne].
      - rewrite Heq in *. rewrite list_lookup_alter_eq, H1. simpl. eauto.
      - rewrite list_lookup_alter_ne by exact Hne. eauto. }
    exists o'. split; [exact H'|]. rewrite Hp', Hp1.
    destruct (long_opts !! long_opt_index g) as [entry|]; [|reflexivity].
    destruct (flag entry) as [i|]; reflexivity.
  - destruct (FindOption_short _ options) as [[i x]|]; simpl; [|eauto].
    destruct (decide (i = k)) as [->|Hne].
    + rewrite list_lookup_alter_eq, Hk. simpl. eauto.
    + rewrite list_lookup_alter_ne by exact Hne. eauto.
Qed.

Lemma parse_call_error_message long_opts g
    (options : list CommandLineOption) e e' :
  fst (parse_call long_opts g (options, e)) =
  fst (parse_call long_opts g (options, e')).
Proof.
  unfold parse_call.
  destruct ((opt g =? 63)%Z || (opt g =? 58)%Z); [reflexivity|].
  destruct (opt g =? 0)%Z; [reflexivity|].
  destruct (FindOption_short _ options) as [[i o]|]; reflexivity.
Qed.

Lemma lookup_ParseCommandLine calls long_opts :
  forall (options0 options : list CommandLineOption) error_message k o,
    static <$> options0 = static <$> options ->
    options !! k = Some o ->
    int_wrap (count o) = count o ->
    exists o',
      fst (ParseCommandLine calls long_opts (options, error_message)) !! k
      = Some o' /\
      static o' = static o /\
      count o' = int_wrap (count o + Z.of_nat (occurrences options0 k calls)) /\
      value o' = value o ++ stored_values options0 k calls.
Proof.
  unfold occurrences, stored_values.
  induction calls as [|g rest IH]; intros options0 options e k o Hst Hk Hint.
  { exists o. simpl. rewrite Z.add_0_r, app_nil_r. auto. }
  cbn [ParseCommandLine live]. destruct (opt g =? -1)%Z.
  { exists o. simpl. rewrite Z.add_0_r, app_nil_r. auto. }
  destruct (lookup_parse_call long_opts g options e k o Hk)
    as (o1 & H1 & Hs1 & Hc1 & Hv1).
  destruct (parse_call long_opts g (options, e)) as [options1 e1] eqn:E.
  simpl in H1.
  assert (static <$> options0 = static <$> options1) as Hst1.
  { rewrite Hst. symmetry.
    pose proof (static_parse_call long_opts g options e) as H.
    rewrite E in H. exact H. }
  rewrite <- (hits_static options0 options k g Hst) in Hc1, Hv1.
  assert (int_wrap (count o1) = count o1) as Hint1.
  { rewrite Hc1. destruct (hits options0 k g);
      [apply int_wrap_idem|exact Hint]. }
  destruct (IH options0 options1 e1 k o1 Hst1 H1 Hint1)
    as (o' & H' & Hs' & Hc' & Hv').
  exists o'. split; [exact H'|]. split; [congruence|].
  rewrite Hc', Hv', Hc1, Hv1. cbn [List.filter].
  destruct (hits options0 k g).
  - cbn [length flat_map]. rewrite int_wrap_add_l, <- app_assoc.
    split; [f_equal; lia|reflexivity].
  - rewrite app_nil_r. split; reflexivity.
Qed.

Lemma present_ParseCommandLine calls long_opts :
  (forall j entry i, long_opts !! j = Some entry -> flag entry = Some i ->
                     val entry = 1%Z) ->
  forall (options : list CommandLineOption) error_message k o,
    options !! k = Some o ->
    exists o',
      fst (ParseCommandLine calls long_opts (options, error_message)) !! k
      = Some o' /\
      present o' =
      if existsb (flags long_opts k) (live calls) then 1%Z else present o.
Proof.
  intros Hval.
  induction calls as [|g rest IH]; intros options e k o Hk; [eauto|].
  cbn [ParseCommandLine live]. destruct (opt g =? -1)%Z; [eauto|].
  destruct (present_parse_call long_opts g options e k o Hval Hk)
    as (o1 & H1 & Hp1).
  destruct (parse_call long_opts g (options, e)) as [options1 e1].
  simpl in H1.
  destruct (IH options1 e1 k o1 H1) as (o' & H' & Hp').
  exists o'. split; [exact H'|]. rewrite Hp', Hp1. cbn [existsb].
  destruct (flags long_opts k g); simpl;
    destruct (existsb (flags long_opts k) (live rest)); reflexivity.
Qed.

Lemma long_entries_val options :
  forall i0 j entry i,
    (long_entries i0 options ++ [long_opts_end]) !! j = Some entry ->
    flag entry = Some i -> val entry = 1%Z.
Proof.
  intros i0 j entry i Hj Hf.
  apply list_elem_of_lookup_2 in Hj. apply elem_of_app in Hj as [Hj|Hj].
  - revert i0 Hj. induction options as [|o rest IH]; intros i0 Hj; simpl in Hj.
    + apply elem_of_nil in Hj. destruct Hj.
    + apply elem_of_app in Hj as [Hj|Hj]; [|eapply IH, Hj].
      destruct (named o).
      * apply list_elem_of_singleton in Hj. subst entry. reflexivity.
      * apply elem_of_nil in Hj. destruct Hj.
  - apply list_elem_of_singleton in Hj. subst entry. discriminate.
Qed.

Lemma static_clear_flags (options : list CommandLineOption) :
  static <$> (clear_flags <$> options) = static <$> options.
Proof. rewrite <- list_fmap_compose. reflexivity. Qed.

(* What Parse leaves in element k of the table. *)
Lemma Parse_lookup :
  forall calls options error_message k o,
    options !! k = Some o ->
    exists o',
      fst (snd (Parse calls (options, error_message))) !! k = Some o' /\
      static o' = static o /\
      count o' = int_wrap (Z.of_nat (occurrences options k calls)) /\
      value o' = value o ++ stored_values options k calls.
Proof.
  intros calls options error_message k o Hk. unfold Parse.
  rewrite (BuildParserParameters_eq options EmptyString []).
  assert ((clear_flags <$> options) !! k = Some (clear_flags o)) as Hk1
      by (rewrite list_lookup_fmap, Hk; reflexivity).
  destruct (lookup_ParseCommandLine calls
              ([] ++ long_entries 0 options ++ [long_opts_end])
              options (clear_flags <$> options) error_message k
              (clear_flags o)
              (eq_sym (static_clear_flags options)) Hk1 eq_refl)
    as (o' & H' & Hs' & Hc' & Hv').
  destruct (ParseCommandLine calls _ (clear_flags <$> options, error_message))
    as [options2 e2].
  destruct (ValidateOptions options2 e2) as [rc e3]. simpl in *.
  exists o'. split; [exact H'|]. split; [exact Hs'|].
  split; [exact Hc'|exact Hv'].
Qed.

Lemma Parse_present :
  forall calls options error_message k o,
    options !! k = Some o ->
    exists o',
      fst (snd (Parse calls (options, error_message))) !! k = Some o' /\
      present o' =
      if existsb (flags (long_entries 0 options ++ [long_opts_end]) k)
           (live calls)
      then 1%Z else 0%Z.
Proof.
  intros calls options error_message k o Hk. unfold Parse.
  rewrite (BuildParserParameters_eq options EmptyString []).
  assert ((clear_flags <$> options) !! k = Some (clear_flags o)) as Hk1
      by (rewrite list_lookup_fmap, Hk; reflexivity).
  destruct (present_ParseCommandLine calls
              ([] ++ long_entries 0 options ++ [long_opts_end])
              (long_entries_val options 0)
              (clear_flags <$> options) error_message k (clear_flags o) Hk1)
    as (o' & H' & Hp').
  destruct (ParseCommandLine calls _ (clear_flags <$> options, error_message))
    as [options2 e2].
  destruct (ValidateOptions options2 e2) as [rc e3]. simpl in *.
  exists o'. split; [exact H'|exact Hp'].
Qed.

Lemma static_ParseCommandLine calls long_opts :
  forall (options : list CommandLineOption) error_message,
    static <$> fst (ParseCommandLine calls long_opts (options, error_message))
    = static <$> options.
Proof.
  induction calls as [|g rest IH]; intros options e; [reflexivity|].
  cbn [ParseCommandLine]. destruct (opt g =? -1)%Z; [reflexivity|].
  pose proof (static_parse_call long_opts g options e) as H.
  destruct (parse_call long_opts g (options, e)) as [options1 e1].
  rewrite IH. exact H.
Qed.

Lemma static_Parse calls (options : list CommandLineOption) error_message :
  static <$> fst (snd (Parse calls (options, error_message))) =
  static <$> options.
Proof.
  unfold Parse.
  rewrite (BuildParserParameters_eq options EmptyString []).
  pose proof (static_ParseCommandLine calls
                ([] ++ long_entries 0 options ++ [long_opts_end])
                (clear_flags <$> options) error_message) as H.
  destruct (ParseCommandLine calls _ (clear_flags <$> options, error_message))
    as [options2 e2].
  destruct (ValidateOptions options2 e2) as [rc e3]. simpl in *.
  rewrite H. apply static_clear_flags.
Qed.

(** X14: what Parse leaves in each option of the table.  Its count is
    the number of results of getopt_long, up to the first -1, that are
    counted for it: long matches whose index is the position of the
    option, and short matches whose character resolves to it; the
    number is held in an int, so it is that number wrapped to 32 bits,
    and the number itself below 2^31; the count it had before does not
    matter.  Its present is 1 when one of those results is a long match
    of an entry whose flag points to the option, and 0 otherwise,
    whatever it was before.  Its values are the values it held before
    followed by the arguments of the results counted for it, in order:
    Parse never drops a value stored by an earlier call.  What
    AddOption has set of the option does not change, and the table
    keeps its length. *)
Theorem Parse_counts_and_values :
  forall calls options error_message,
    length (fst (snd (Parse calls (options, error_message)))) =
    length options /\
    forall k o,
      options !! k = Some o ->
      exists o',
        fst (snd (Parse calls (options, error_message))) !! k = Some o' /\
        static o' = static o /\
        count o' = int_wrap (Z.of_nat (occurrences options k calls)) /\
        ((Z.of_nat (occurrences options k calls) < 2147483648)%Z ->
         count o' = Z.of_nat (occurrences options k calls)) /\
        present o' =
        (if existsb
              (flags (snd (BuildParserParameters options EmptyString [])) k)
              (live calls)
         then 1%Z else 0%Z) /\
        value o' = value o ++ stored_values options k calls.
Proof.
  intros calls options error_message. split.
  - pose proof (static_Parse calls options error_message) as H.
    apply (f_equal length) in H. rewrite !length_fmap in H. exact H.
  - intros k o Hk.
    destruct (Parse_lookup calls options error_message k o Hk)
      as (o' & H' & Hs' & Hc' & Hv').
    destruct (Parse_present calls options error_message k o Hk)
      as (o'' & H'' & Hp'').
    rewrite H' in H''. injection H'' as <-.
    exists o'. split; [exact H'|]. split; [exact Hs'|].
    split; [exact Hc'|]. split; [|split; [|exact Hv']].
    + intros Hlt. rewrite Hc'. apply int_wrap_small. lia.
    + rewrite (BuildParserParameters_eq options EmptyString []).
      exact Hp''.
Qed.

Lemma Parse_counts_and_values_witness :
  let options := cmd_run 7 8 9 10 in
  let calls :=
    [{| opt := 0; long_opt_index := 1; optarg := Some "80";
        last_arg := "80" |};
     {| opt := 112; long_opt_index := 0; optarg := Some "81";
        last_arg := "81" |}] in
  exists o o',
    options !! 1 = Some o /\
    fst (snd (Parse calls (options, EmptyString))) !! 1 = Some o' /\
    count o = 10%Z /\ present o = 9%Z /\
    count o' = 2%Z /\ present o' = 1%Z /\ value o' = ["80"; "81"].
Proof.
  eexists; eexists. split; [reflexivity|]. split; [reflexivity|].
  split; [reflexivity|]. split; [reflexivity|].
  destruct (proj2 (Parse_counts_and_values
              [{| opt := 0; long_opt_index := 1; optarg := Some "80";
                  last_arg := "80" |};
               {| opt := 112; long_opt_index := 0; optarg := Some "81";
                  last_arg := "81" |}]
              (cmd_run 7 8 9 10) EmptyString) 1 _ eq_refl)
    as (o' & H' & _ & Hc & _ & Hp & Hv).
  injection H' as <-. split; [exact Hc|]. split; [exact Hp|exact Hv].
Defined.

(* Parse returns what ValidateOptions says of the table it leaves. *)
Lemma Parse_rc_valid calls options error_message :
  fst (Parse calls (options, error_message)) = true <->
  Forall option_valid (fst (snd (Parse calls (options, error_message)))).
Proof.
  unfold Parse. rewrite (BuildParserParameters_eq options EmptyString []).
  destruct (ParseCommandLine calls _ (clear_flags <$> options, error_message))
    as [options2 e2].
  unfold ValidateOptions.
  destruct (validate_loop_spec options2 true e2) as (rc & sfx & -> & H & _).
  simpl. tauto.
Qed.

Lemma ParseCommandLine_skips_errors calls long_opts :
  forall (options : list CommandLineOption) e e',
    fst (ParseCommandLine calls long_opts (options, e)) =
    fst (ParseCommandLine
           (List.filter (fun g => negb (is_error g)) calls) long_opts
           (options, e')).
Proof.
  induction calls as [|g rest IH]; intros options e e'; [reflexivity|].
  cbn [ParseCommandLine List.filter].
  destruct (opt g =? -1)%Z eqn:Eend.
  - assert (is_error g = false) as ->.
    { apply Z.eqb_eq in Eend. unfold is_error. rewrite Eend. reflexivity. }
    cbn [negb ParseCommandLine]. rewrite Eend. reflexivity.
  - destruct (is_error g) eqn:Eerr; cbn [negb].
    + unfold parse_call at 1. unfold is_error in Eerr. rewrite Eerr.
      apply IH.
    + cbn [ParseCommandLine]. rewrite Eend.
      pose proof (parse_call_error_message long_opts g options e e') as H.
      destruct (parse_call long_opts g (options, e)) as [o1 e1],
               (parse_call long_opts g (options, e')) as [o1' e1'].
      simpl in H. subst o1'. apply IH.
Qed.

Lemma validate_loop_rc options rc e e' :
  fst (validate_loop options rc e) = fst (validate_loop options rc e').
Proof.
  destruct (validate_loop_spec options rc e) as (r1 & s1 & -> & H1 & _).
  destruct (validate_loop_spec options rc e') as (r2 & s2 & -> & H2 & _).
  simpl. apply Bool.eq_iff_eq_true. rewrite H1, H2. reflexivity.
Qed.

(** X15: a result '?' or ':' of getopt_long, for an unknown option or a
    missing argument, only adds a line to error_message: Parse returns
    what it returns without those results and leaves the same table, so
    an unknown option alone never makes Parse fail. *)
Theorem Parse_ignores_getopt_errors :
  forall calls options error_message,
    let clean := List.filter (fun g => negb (is_error g)) calls in
    fst (Parse calls (options, error_message)) =
    fst (Parse clean (options, error_message)) /\
    fst (snd (Parse calls (options, error_message))) =
    fst (snd (Parse clean (options, error_message))) /\
    forall arg,
      Parse [{| opt := 63; long_opt_index := 0; optarg := None;
                last_arg := arg |}] ([], error_message) =
      (true, ([], error_message +:+
                  "Error: Unknown option or missing value " +:+ arg +:+ endl)).
Proof.
  intros calls options error_message clean. unfold Parse.
  rewrite (BuildParserParameters_eq options EmptyString []).
  pose proof (ParseCommandLine_skips_errors calls
                ([] ++ long_entries 0 options ++ [long_opts_end])
                (clear_flags <$> options) error_message error_message) as H.
  fold clean in H.
  destruct (ParseCommandLine calls _ (clear_flags <$> options, error_message))
    as [options2 e2].
  destruct (ParseCommandLine clean _ (clear_flags <$> options, error_message))
    as [options2' e2'].
  simpl in H. subst options2'.
  pose proof (validate_loop_rc options2 true e2 e2') as Hrc.
  unfold ValidateOptions.
  destruct (validate_loop options2 true e2) as [rc e3],
           (validate_loop options2 true e2') as [rc' e3'].
  simpl in *. repeat split; assumption || reflexivity.
Qed.

Lemma flat_map_stored_length (l : list getopt_call) :
  (forall g, In g l -> optarg g <> None) ->
  length (flat_map stored l) = length l.
Proof.
  induction l as [|g l IH]; intros H; [reflexivity|]. simpl.
  rewrite length_app, IH by (intros g' Hg'; apply H; right; exact Hg').
  unfold stored. destruct (optarg g) eqn:E; [reflexivity|].
  exfalso. apply (H g); [left; reflexivity|exact E].
Qed.

(** X16: when getopt_long hands an argument with every result counted
    for an option (as it does for an option built with
    required_argument) and the option held no values before, Parse
    leaves it with as many values as results were counted, and count is
    that number as an int: the number itself below 2^31, wrapped to 32
    bits in general; so once IsOptionValue holds for its name,
    GetOptionValues is its value vector and element 0 of it exists. *)
Theorem required_values_match_count :
  forall calls options error_message k o,
    FindOption (long_name o) options = Some (k, o) ->
    value o = [] ->
    (forall g, In g (live calls) -> hits options k g = true ->
               optarg g <> None) ->
    let options' := fst (snd (Parse calls (options, error_message))) in
    exists o',
      options' !! k = Some o' /\
      int_wrap (Z.of_nat (length (value o'))) = count o' /\
      ((Z.of_nat (length (value o')) < 2147483648)%Z ->
       Z.of_nat (length (value o')) = count o') /\
      (IsOptionValue (long_name o) options' = true ->
       GetOptionValues (long_name o) options' = value o' /\
       value o' <> []).
Proof.
  intros calls options error_message k o Hfind Hv Harg options'.
  pose proof Hfind as Hk. apply list_find_Some in Hk as (Hk & _ & _).
  destruct (Parse_lookup calls options error_message k o Hk)
    as (o' & H' & Hs' & Hc' & Hv').
  fold options' in H'. exists o'. split; [exact H'|].
  assert (int_wrap (Z.of_nat (length (value o'))) = count o') as Hlen.
  { rewrite Hc', Hv', Hv. simpl. unfold stored_values, occurrences.
    rewrite flat_map_stored_length; [reflexivity|].
    intros g Hg. apply List.filter_In in Hg as [Hg Hh]. auto. }
  split; [exact Hlen|]. split.
  { intros Hlt. rewrite <- Hlen. symmetry. apply int_wrap_small. lia. }
  pose proof (FindOption_static (long_name o) options' options
                (static_Parse calls options error_message)) as Hf.
  rewrite Hfind in Hf. simpl in Hf.
  unfold IsOptionValue, GetOptionValues.
  destruct (FindOption (long_name o) options') as [[i x]|] eqn:E;
    [|discriminate].
  simpl in Hf. injection Hf as ->.
  apply list_find_Some in E as (E & _ & _).
  rewrite H' in E. injection E as <-. simpl.
  intros Hc. rewrite Hc. split; [reflexivity|].
  apply Z.ltb_lt in Hc. intros Hnil. rewrite Hnil in Hlen.
  simpl in Hlen. rewrite <- Hlen in Hc. revert Hc. clear. intros Hc.
  vm_compute in Hc. discriminate Hc.
Qed.

Lemma required_values_match_count_witness :
  let options := cmd_run 7 8 9 10 in
  let calls :=
    [{| opt := 0; long_opt_index := 1; optarg := Some "80";
        last_arg := "80" |}] in
  IsOptionValue "port" (fst (snd (Parse calls (options, EmptyString)))) = true /\
  GetOptionValues "port" (fst (snd (Parse calls (options, EmptyString)))) =
  ["80"].
Proof.
  split; [reflexivity|].
  destruct (required_values_match_count
              [{| opt := 0; long_opt_index := 1; optarg := Some "80";
                  last_arg := "80" |}]
              (cmd_run 7 8 9 10) EmptyString 1
              {| long_name := "port"; short_name := "p"; required := false;
                 has_value := Required; occurs_type := AtMost;
                 occurs_value := 1; help := "TCP port to bind to.";
                 present := 9; count := 10; value := [] |}
              eq_refl eq_refl)
    as (o' & H' & _ & _ & Hget).
  - intros g [<-|[]] _. discriminate.
  - injection H' as <-. apply Hget. reflexivity.
Defined.

Lemma occurrences_static (l l' : list CommandLineOption) k calls :
  static <$> l = static <$> l' ->
  occurrences l k calls = occurrences l' k calls /\
  stored_values l k calls = stored_values l' k calls.
Proof.
  intros H. unfold occurrences, stored_values.
  rewrite (List.filter_ext (hits l k) (hits l' k));
    [split; reflexivity|].
  intros g. apply hits_static, H.
Qed.

(** X17: Parse called again on the same CommandLine counts from zero
    but keeps the values of the first call: after the second call the
    count of an option is the number of results of the second call
    alone (as an int: the number itself below 2^31, wrapped to 32 bits
    in general), while its values are those it held at the start, then
    the arguments stored by the first call, then those of the
    second. *)
Theorem Parse_twice_accumulates :
  forall calls1 calls2 options error_message k o,
    options !! k = Some o ->
    let r1 := Parse calls1 (options, error_message) in
    let r2 := Parse calls2 (snd r1) in
    exists o2,
      fst (snd r2) !! k = Some o2 /\
      count o2 = int_wrap (Z.of_nat (occurrences options k calls2)) /\
      ((Z.of_nat (occurrences options k calls2) < 2147483648)%Z ->
       count o2 = Z.of_nat (occurrences options k calls2)) /\
      value o2 =
      value o ++ stored_values options k calls1 ++
      stored_values options k calls2.
Proof.
  intros calls1 calls2 options error_message k o Hk r1 r2.
  destruct (Parse_lookup calls1 options error_message k o Hk)
    as (o1 & H1 & _ & _ & Hv1).
  pose proof (static_Parse calls1 options error_message) as Hst.
  fold r1 in H1, Hst. unfold r2.
  destruct (snd r1) as [options1 e1]. simpl in H1, Hst.
  destruct (Parse_lookup calls2 options1 e1 k o1 H1)
    as (o2 & H2 & _ & Hc2 & Hv2).
  destruct (occurrences_static options1 options k calls2 Hst) as [Ho Hsv].
  exists o2. split; [exact H2|].
  rewrite Hc2, Hv2, Hv1, Ho, Hsv, <- app_assoc.
  split; [reflexivity|]. split; [|reflexivity].
  intros Hlt. apply int_wrap_small. lia.
Qed.

Lemma Parse_twice_accumulates_witness :
  let calls :=
    [{| opt := 112; long_opt_index := 0; optarg := Some "80";
        last_arg := "80" |}] in
  let r1 := Parse calls (cmd_run 7 8 9 10, EmptyString) in
  let r2 := Parse calls (snd r1) in
  exists o2,
    fst (snd r2) !! 1 = Some o2 /\
    count o2 = 1%Z /\ value o2 = ["80"; "80"].
Proof.
  destruct (Parse_twice_accumulates
              [{| opt := 112; long_opt_index := 0; optarg := Some "80";
                  last_arg := "80" |}]
              [{| opt := 112; long_opt_index := 0; optarg := Some "80";
                  last_arg := "80" |}]
              (cmd_run 7 8 9 10) EmptyString 1 _ eq_refl)
    as (o2 & H2 & Hc & _ & Hv).
  exists o2. split; [exact H2|]. split; [exact Hc|exact Hv].
Defined.

(* --------------------------------------------------------------------- *)
(* The options of main                                                   *)
(* --------------------------------------------------------------------- *)

Lemma static_fields o o' :
  static o = static o' ->
  required o = required o' /\ occurs_type o = occurs_type o' /\
  occurs_value o = occurs_value o'.
Proof. unfold static. intros H. injection H. auto. Qed.

Lemma option_valid_at_most_once o :
  required o = false -> occurs_type o = AtMost -> occurs_value o = 1%Z ->
  option_valid o <-> (count o <= 1)%Z.
Proof.
  intros Hr Ht Hv. unfold option_valid. rewrite Hr, Ht, Hv.
  split; [intros [[H _]|[_ H]]; lia|].
  intros H. destruct (decide (count o = 0%Z)) as [E|E];
    [left; split; [exact E|reflexivity]|right; split; [exact E|exact H]].
Qed.

Lemma occurrences_le options k calls :
  occurrences options k calls <= length (live calls).
Proof. apply filter_length_le. Qed.

(** X18: with the table main builds (host and port, each optional, each
    at most once), Parse returns true exactly when the count of host
    and the count of port, which are the numbers of results of
    getopt_long counted for them held in an int, are at most 1: so, as
    long as getopt_long gives fewer than 2^31 results, exactly when at
    most one result is counted for host and at most one for port; main
    goes on to create its socket in that case only. *)
Theorem main_options_accepted :
  forall calls present0 count0 present1 count1 error_message,
    let options := cmd_run present0 count0 present1 count1 in
    (fst (Parse calls (options, error_message)) = true <->
     (int_wrap (Z.of_nat (occurrences options 0 calls)) <= 1)%Z /\
     (int_wrap (Z.of_nat (occurrences options 1 calls)) <= 1)%Z) /\
    ((Z.of_nat (length (live calls)) < 2147483648)%Z ->
     (fst (Parse calls (options, error_message)) = true <->
      occurrences options 0 calls <= 1 /\ occurrences options 1 calls <= 1)).
Proof.
  intros calls p0 c0 p1 c1 e options.
  destruct (Parse_lookup calls options e 0 _ eq_refl)
    as (h & Hh & Hsh & Hch & _).
  destruct (Parse_lookup calls options e 1 _ eq_refl)
    as (p & Hp & Hsp & Hcp & _).
  pose proof (static_Parse calls options e) as Hst.
  apply (f_equal length) in Hst. rewrite !length_fmap in Hst.
  assert (fst (snd (Parse calls (options, e))) = [h; p]) as Hopts.
  { destruct (fst (snd (Parse calls (options, e)))) as [|x [|y [|z l]]];
      try discriminate.
    simpl in Hh, Hp. congruence. }
  assert (fst (Parse calls (options, e)) = true <->
          Forall option_valid [h; p]) as Hrc
      by (rewrite <- Hopts; apply Parse_rc_valid).
  apply static_fields in Hsh as (Hr0 & Ht0 & Hv0).
  apply static_fields in Hsp as (Hr1 & Ht1 & Hv1).
  assert (fst (Parse calls (options, e)) = true <->
          (int_wrap (Z.of_nat (occurrences options 0 calls)) <= 1)%Z /\
          (int_wrap (Z.of_nat (occurrences options 1 calls)) <= 1)%Z)
    as Hexact.
  { rewrite Hrc, !Forall_cons, Forall_nil.
    rewrite (option_valid_at_most_once h Hr0 Ht0 Hv0).
    rewrite (option_valid_at_most_once p Hr1 Ht1 Hv1).
    rewrite Hch, Hcp. tauto. }
  split; [exact Hexact|].
  intros Hlt. rewrite Hexact.
  pose proof (occurrences_le options 0 calls).
  pose proof (occurrences_le options 1 calls).
  rewrite !int_wrap_small by lia. lia.
Qed.

Lemma main_options_accepted_witness :
  let calls :=
    [{| opt := 112; long_opt_index := 0; optarg := Some "80";
        last_arg := "80" |};
     {| opt := 0; long_opt_index := 1; optarg := Some "81";
        last_arg := "--port=81" |}] in
  (Z.of_nat (length (live calls)) < 2147483648)%Z /\
  fst (Parse calls (cmd_run 0 0 0 0, EmptyString)) = false /\
  ~ occurrences (cmd_run 0 0 0 0) 1 calls <= 1.
Proof.
  split; [reflexivity|]. split; [reflexivity|].
  intros H.
  assert (fst (Parse
                 [{| opt := 112; long_opt_index := 0; optarg := Some "80";
                     last_arg := "80" |};
                  {| opt := 0; long_opt_index := 1; optarg := Some "81";
                     last_arg := "--port=81" |}]
                 (cmd_run 0 0 0 0, EmptyString)) = true) as Hrc.
  { apply (proj2 (main_options_accepted _ 0%Z 0%Z 0%Z 0%Z EmptyString));
      [reflexivity|]. split; [|exact H]. apply Nat.le_0_l. }
  discriminate Hrc.
Defined.

(* --------------------------------------------------------------------- *)
(* The name printed for a path                                           *)
(* --------------------------------------------------------------------- *)

Lemma after_last_slash_spec s :
  match after_last_slash s with
  | Some tail =>
      has_slash tail = false /\
      exists dir, s = (dir +:+ "/") +:+ tail
  | None => has_slash s = false
  end.
Proof.
  induction s as [|chr rest IH]; [reflexivity|]. simpl.
  destruct (after_last_slash rest) as [tail|].
  - destruct IH as [Ht [dir ->]]. split; [exact Ht|].
    exists (String chr dir). reflexivity.
  - destruct (Ascii.eqb chr "/") eqn:E.
    + apply Ascii.eqb_eq in E as ->. split; [exact IH|].
      exists EmptyString. reflexivity.
    + exact IH.
Qed.

Lemma has_slash_app a b : has_slash (a +:+ b) = has_slash a || has_slash b.
Proof.
  induction a as [|chr rest IH]; [reflexivity|].
  rewrite append_cons. simpl. rewrite IH. apply orb_assoc.
Qed.

(** X19: the name PrintUsage prints for argv[0] (and write_log for a
    file path) is the part of the path behind its last '/': it holds no
    '/', the path is a directory part that is empty or ends in '/'
    followed by the name, and a path without '/' is printed as it
    is. *)
Theorem executable_name_is_basename :
  forall argv0,
    has_slash (executable_name argv0) = false /\
    (exists dir,
        c_str argv0 = dir +:+ executable_name argv0 /\
        (dir = EmptyString \/ exists d, dir = d +:+ "/")) /\
    (has_slash (c_str argv0) = false -> executable_name argv0 = c_str argv0).
Proof.
  intros argv0. unfold executable_name.
  pose proof (after_last_slash_spec (c_str argv0)) as H.
  destruct (after_last_slash (c_str argv0)) as [tail|].
  - destruct H as [Ht [dir E]]. split; [exact Ht|]. split.
    + exists (dir +:+ "/"). split; [exact E|]. right. eauto.
    + intros Hs. rewrite E, !has_slash_app in Hs. simpl in Hs.
      rewrite orb_true_r in Hs. discriminate.
  - split; [exact H|]. split; [|reflexivity].
    exists EmptyString. split; [reflexivity|]. left. reflexivity.
Qed.

Lemma executable_name_is_basename_witness :
  has_slash (c_str "cli") = false /\ executable_name "cli" = "cli".
Proof.
  split; [reflexivity|].
  apply (executable_name_is_basename "cli"). reflexivity.
Defined.

Lemma tokens_nonempty_without_space_witness :
  Forall (fun token => token <> EmptyString /\ has_space token = false)
         (strtok_all (c_str "  ex   dir ")).
Proof. apply (tokens_nonempty_without_space "  ex   dir "). Defined.

(* --------------------------------------------------------------------- *)
(* After `running` is false; echoes over a whole connection              *)
(* --------------------------------------------------------------------- *)

(* No step removes a thread. *)
Lemma server_step_workers_le l s :
  length (workers s) <= length (workers (server_step l s)).
Proof.
  destruct l as [ev|status|i ev]; simpl.
  - destruct (main_step_workers ev s) as [E|E]; rewrite E;
      [|rewrite length_app]; simpl; lia.
  - rewrite main_wait_workers. lia.
  - rewrite worker_step_length. lia.
Qed.

(* With `running` false a step starts a thread only by using up the
   select main is in. *)
Lemma server_step_stopped l s :
  srv_running s = false ->
  length (workers (server_step l s)) + pending_accepts (server_step l s) <=
  length (workers s) + pending_accepts s.
Proof.
  intros Hr. unfold pending_accepts. destruct l as [ev|status|i ev]; simpl.
  - unfold main_step, reap_iter. destruct (pc s) as [| | |i|k|] eqn:Epc.
    + rewrite Hr. simpl. lia.
    + destruct ev; simpl; rewrite ?length_app; simpl; lia.
    + rewrite Epc. lia.
    + destruct (threads s !! i) as [h|]; [destruct (future_ready s h)|];
        simpl; lia.
    + destruct (threads s !! k) as [h|]; [destruct (future_ready s h)|];
        simpl; rewrite ?Epc; lia.
    + rewrite Epc. lia.
  - unfold main_wait. destruct (pc s) eqn:Epc; rewrite ?Epc; try lia.
    destruct status; simpl; rewrite ?Epc; lia.
  - rewrite worker_step_length, worker_step_pc. lia.
Qed.

Lemma server_run_workers_le ls :
  forall s, length (workers s) <= length (workers (server_run ls s)).
Proof.
  induction ls as [|l ls IH]; intros s; simpl; [lia|].
  pose proof (server_step_workers_le l s). pose proof (IH (server_step l s)).
  lia.
Qed.

Lemma server_run_stopped ls :
  forall s,
    srv_running s = false ->
    length (workers (server_run ls s)) + pending_accepts (server_run ls s) <=
    length (workers s) + pending_accepts s.
Proof.
  induction ls as [|l ls IH]; intros s Hr; simpl; [lia|].
  pose proof (server_step_stopped l s Hr).
  pose proof (IH (server_step l s) (server_step_running_false l s Hr)).
  lia.
Qed.

(** X20: once `running` is false main accepts at most one more
    connection, the one of the select it is in already: main tests
    `running` at the head of its loop only, so when the flag falls while
    main is past that test, a connection that arrives is still accepted
    and its thread started.  Under every schedule from a state with
    `running` false, the number of threads grows by at most one, and
    not at all unless main is in that select; no thread goes away; and
    from that select, an accept that succeeds does start a thread with
    `running` false. *)
Theorem one_accept_after_shutdown :
  (forall ls s,
      srv_running s = false ->
      length (workers s) <= length (workers (server_run ls s)) /\
      length (workers (server_run ls s)) + pending_accepts (server_run ls s)
      <= length (workers s) + pending_accepts s) /\
  (forall ls s,
      srv_running s = false -> pc s <> InSelect ->
      length (workers (server_run ls s)) = length (workers s)) /\
  (forall s,
      srv_running s = false -> pc s = InSelect ->
      let s' := server_step (MainStep Accepted) s in
      srv_running s' = false /\
      length (workers s') = S (length (workers s)) /\
      threads s' = threads s ++ [length (workers s)]).
Proof.
  split; [|split].
  - intros ls s Hr. split; [apply server_run_workers_le|].
    apply server_run_stopped, Hr.
  - intros ls s Hr Hpc.
    pose proof (server_run_workers_le ls s).
    pose proof (server_run_stopped ls s Hr) as H1.
    unfold pending_accepts at 2 in H1.
    destruct (pc s); try contradiction; lia.
  - intros s Hr Hpc. simpl. unfold main_step. rewrite Hpc. simpl.
    rewrite length_app. simpl. split; [exact Hr|]. split; [lia|reflexivity].
Qed.

Lemma one_accept_after_shutdown_witness :
  let s := server_run (accept_one ++
                       [MainStep Accepted; WorkerStep 0 SelectTimeout;
                        WorkerStep 0 (RecvData [])]) server_init in
  srv_running s = false /\ pc s = InSelect /\
  length (workers s) = 1 /\
  length (workers (server_step (MainStep Accepted) s)) = 2 /\
  length (workers
            (server_run (accept_one ++ accept_one)
               (server_step (MainStep Accepted) s))) = 2.
Proof.
  split; [reflexivity|]. split; [reflexivity|]. split; [reflexivity|].
  split.
  - apply (proj2 (proj2 one_accept_after_shutdown)
             (server_run (accept_one ++
                          [MainStep Accepted; WorkerStep 0 SelectTimeout;
                           WorkerStep 0 (RecvData [])]) server_init));
      reflexivity.
  - apply (proj1 (proj2 one_accept_after_shutdown)
             (accept_one ++ accept_one)
             (server_step (MainStep Accepted)
                (server_run (accept_one ++
                             [MainStep Accepted; WorkerStep 0 SelectTimeout;
                              WorkerStep 0 (RecvData [])]) server_init)));
      [reflexivity|discriminate].
Defined.

Lemma count_echo_app t1 t2 :
  count_echo (t1 ++ t2) = count_echo t1 + count_echo t2.
Proof. unfold count_echo. rewrite List.filter_app, length_app. reflexivity. Qed.

Lemma process_line_echo w :
  exists out,
    sock (wk_conn (process_line w)) = sock (wk_conn w) ++ out /\
    count_echo out = 0.
Proof.
  unfold process_line. destruct (line (wk_conn w)) as [|chr rest] eqn:El.
  - exists []. rewrite app_nil_r. auto.
  - destruct (response_shape (String chr rest) (wk_running w)) as [k Hk].
    rewrite Hk. destruct k as [|k].
    + exists []. simpl. rewrite app_nil_r. auto.
    + exists [Send crlf; Send (dir_output (S k))].
      split; [simpl; rewrite <- app_assoc; reflexivity|reflexivity].
Qed.

Lemma process_chr_echo chr w :
  exists out,
    sock (wk_conn (process_chr chr w)) = sock (wk_conn w) ++ out /\
    count_echo out = if isprint chr then 1 else 0.
Proof.
  unfold process_chr. destruct (is_terminator chr) eqn:Et.
  - destruct (process_line_echo w) as (out & Hs & Ho).
    exists (out ++ [Send prompt]). simpl. rewrite Hs, <- app_assoc.
    split; [reflexivity|]. rewrite count_echo_app, Ho.
    destruct (isprint chr) eqn:Ep; [|reflexivity].
    rewrite (isprint_not_terminator _ Ep) in Et. discriminate.
  - destruct (isprint chr); simpl.
    + exists [echo chr]. split; reflexivity.
    + exists []. rewrite app_nil_r. auto.
Qed.

Lemma process_bytes_echo buf :
  forall w, exists out,
    sock (wk_conn (process_bytes buf w)) = sock (wk_conn w) ++ out /\
    received out = [] /\
    count_echo out = length (List.filter isprint buf).
Proof.
  induction buf as [|chr rest IH]; intros w; simpl.
  - exists []. rewrite app_nil_r. auto.
  - destruct (IH (process_chr chr w)) as (out2 & Hs2 & Hr2 & He2).
    destruct (process_chr_echo chr w) as (out1 & Hs1 & He1).
    destruct (process_chr_sock chr w) as (out1' & Hs1' & Hr1 & _).
    assert (out1' = out1) as ->
        by (rewrite Hs1 in Hs1'; apply app_inv_head in Hs1'; congruence).
    exists (out1 ++ out2). rewrite Hs2, Hs1, <- app_assoc.
    split; [reflexivity|].
    rewrite received_app, count_echo_app, Hr1, Hr2, He1, He2.
    split; [reflexivity|]. destruct (isprint chr); reflexivity.
Qed.

Lemma connection_iter_echo ev w :
  exists out,
    sock (wk_conn (connection_iter ev w)) = sock (wk_conn w) ++ out /\
    count_echo out = length (List.filter isprint (received out)).
Proof.
  destruct ev as [| | |[|chr rest]].
  - eexists [Log _]. split; reflexivity.
  - exists []. simpl. rewrite app_nil_r. auto.
  - eexists [Log _]. split; reflexivity.
  - eexists [Log _]. split; reflexivity.
  - unfold connection_iter.
    match goal with |- context [process_bytes ?b ?w0] =>
      destruct (process_bytes_echo b w0) as (out & Hs & Hr & He)
    end.
    rewrite Hs. exists ([Recv (chr :: rest)] ++ out).
    cbn [wk_conn sock]. rewrite <- app_assoc. split; [reflexivity|].
    rewrite received_app, count_echo_app, Hr, He.
    simpl received. rewrite !app_nil_r. reflexivity.
Qed.

Lemma echo_received_reachable ls i t :
  workers (server_run ls server_init) !! i = Some t ->
  count_echo (sock (th_conn t)) =
  length (List.filter isprint (received (sock (th_conn t)))).
Proof.
  apply (reachable_threads
           (fun t => count_echo (sock (th_conn t)) =
                     length (List.filter isprint (received (sock (th_conn t)))))).
  - reflexivity.
  - reflexivity.
  - intros t0 ev H _. simpl.
    destruct (connection_iter_echo ev
                {| wk_running := true; wk_conn := th_conn t0 |})
      as (out & -> & Ho).
    simpl. rewrite count_echo_app, received_app, List.filter_app, length_app.
    rewrite H, Ho. reflexivity.
  - intros t0 H _. simpl.
    rewrite count_echo_app, received_app, List.filter_app, length_app.
    rewrite H. reflexivity.
Qed.

(** X21: over a whole connection, in every reachable state, the worker
    has sent exactly as many one-character echoes as the schedule has
    handed it printable bytes in its recvs: each printable byte that
    arrives is echoed once, and no other byte is echoed; and a run of
    received bytes adds one echo per printable byte in it. *)
Theorem one_echo_per_printable_byte :
  (forall ls i t,
      workers (server_run ls server_init) !! i = Some t ->
      count_echo (sock (th_conn t)) =
      length (List.filter isprint (delivered i ls server_init))) /\
  (forall buf w,
      count_echo (sock (wk_conn (process_bytes buf w))) =
      count_echo (sock (wk_conn w)) + length (List.filter isprint buf)).
Proof.
  split.
  - intros ls i t Hi.
    rewrite <- (received_thread_reachable ls i t Hi).
    apply (echo_received_reachable ls i t Hi).
  - intros buf w.
    destruct (process_bytes_echo buf w) as (out & -> & _ & He).
    rewrite count_echo_app, He. reflexivity.
Qed.

Lemma one_echo_per_printable_byte_witness :
  let ls := accept_one ++
            [WorkerStep 0 SelectTimeout;
             WorkerStep 0 (RecvData [ascii_of_nat 100; ascii_of_nat 7; LF])] in
  exists t,
    workers (server_run ls server_init) !! 0 = Some t /\
    delivered 0 ls server_init = [ascii_of_nat 100; ascii_of_nat 7; LF] /\
    count_echo (sock (th_conn t)) = 1.
Proof.
  eexists. split; [reflexivity|]. split; [reflexivity|].
  rewrite (proj1 one_echo_per_printable_byte
             (accept_one ++
              [WorkerStep 0 SelectTimeout;
               WorkerStep 0 (RecvData [ascii_of_nat 100; ascii_of_nat 7; LF])])
             0 _ eq_refl).
  reflexivity.
Defined.
